(** * artnet_to_csv: a shallow embedding and its specification

    The development follows [artnet_to_csv.py] function by function:
    [find_artnet_separators], [get_artwork_info], [parse_sale_of_column]
    and [main].  Python strings are modelled as [string] (code points
    below 256), Python floats as binary64 primitive floats, dictionaries
    as insertion-ordered association lists and exceptions as the error
    side of a sum type. *)

From Stdlib Require Import String Ascii List Bool Arith ZArith Lia Floats.
Import ListNotations.
Open Scope string_scope.
Open Scope list_scope.
Open Scope nat_scope.

Set Implicit Arguments.

(** ** Exceptions *)

Inductive exn : Type :=
| IndexError
| UnboundLocalError
| ValueError
| KeyError (key : string).

Inductive exc (A : Type) : Type :=
| Ok (a : A)
| Raise (e : exn).

Arguments Ok {A} a.
Arguments Raise {A} e.

Definition bind {A B : Type} (m : exc A) (f : A -> exc B) : exc B :=
  match m with
  | Ok a => f a
  | Raise e => Raise e
  end.

Notation "x <- m ;; k" := (bind m (fun x => k))
  (at level 61, m at next level, right associativity).

(** [for x in xs: acc = body acc x], stopping at the first exception. *)
Fixpoint for_each {A S : Type} (xs : list A) (body : S -> A -> exc S) (acc : S)
  : exc S :=
  match xs with
  | [] => Ok acc
  | x :: rest => acc' <- body acc x ;; for_each rest body acc'
  end.

(** [xs[i]] for a non-negative index. *)
Definition index {A : Type} (xs : list A) (i : nat) : exc A :=
  match nth_error xs i with
  | Some x => Ok x
  | None => Raise IndexError
  end.

(** ** Python string operations *)

Module Str.

(** [str.isspace] on one code point below 256; [\s] of the [re] module
    accepts the same code points. *)
Definition isspace (c : ascii) : bool :=
  let n := nat_of_ascii c in
  ((9 <=? n) && (n <=? 13)) || ((28 <=? n) && (n <=? 32))
  || (n =? 133) || (n =? 160).

Fixpoint lstrip (s : string) : string :=
  match s with
  | String c rest => if isspace c then lstrip rest else s
  | EmptyString => EmptyString
  end.

Fixpoint rstrip (s : string) : string :=
  match s with
  | String c rest =>
      match rstrip rest with
      | EmptyString => if isspace c then EmptyString else String c EmptyString
      | r => String c r
      end
  | EmptyString => EmptyString
  end.

Definition strip (s : string) : string := rstrip (lstrip s).

(** [s.startswith(p)] *)
Fixpoint startswith (s p : string) {struct p} : bool :=
  match p, s with
  | EmptyString, _ => true
  | String b p', String a s' => Ascii.eqb a b && startswith s' p'
  | String _ _, EmptyString => false
  end.

(** [s[n:]] *)
Fixpoint drop (n : nat) (s : string) : string :=
  match n, s with
  | 0, _ => s
  | S n', String _ rest => drop n' rest
  | S _, EmptyString => EmptyString
  end.

(** [s[:n]] *)
Fixpoint take (n : nat) (s : string) : string :=
  match n, s with
  | S n', String c rest => String c (take n' rest)
  | _, _ => EmptyString
  end.

Definition nl : ascii := ascii_of_nat 10.

(** [s.split('\n')]: always at least one piece. *)
Fixpoint split_lines (s : string) : list string :=
  match s with
  | EmptyString => [EmptyString]
  | String c rest =>
      if Ascii.eqb c nl then EmptyString :: split_lines rest
      else match split_lines rest with
           | piece :: pieces => String c piece :: pieces
           | [] => [String c EmptyString]
           end
  end.

(** Truth value of a string: [if s:]. *)
Definition truthy (s : string) : bool :=
  match s with
  | EmptyString => false
  | String _ _ => true
  end.

Definition newline : string := String nl EmptyString.

End Str.

(** ** The document interface (PyMuPDF)

    Only what the program reads is modelled: the drawings of a page, the
    page rectangle and the text-extraction function with an optional clip
    rectangle. *)

(** The attributes of a [fitz.Rect] that the separator scan reads. *)
Record Rect : Type := mkRect {
  y0 : float;
  y1 : float;
  width : float
}.

(** A clip rectangle built by [fitz.Rect(x0, y0, x1, y1)]. *)
Record Clip : Type := mkClip {
  clip_x0 : float;
  clip_y0 : float;
  clip_x1 : float;
  clip_y1 : float
}.

(** One element of [drawing['items']]: the operator tag and, for a
    rectangle, its geometry. *)
Inductive item : Type :=
| re (rect : Rect)
| line_item
| curve_item
| quad_item.

Record drawing : Type := mkDrawing {
  items : list item
}.

Record Page : Type := mkPage {
  get_drawings : list drawing;
  page_width : float;
  page_height : float;
  (** [page.get_text("text", clip=...)]; [None] is the unclipped call. *)
  get_text : option Clip -> string
}.

Definition Document : Type := list Page.

(** ** Separator Locator *)

Record separator : Type := mkSep {
  page : nat;
  y : float
}.

Definition is_thin_wide (rect : Rect) : bool :=
  (PrimFloat.ltb (PrimFloat.abs (PrimFloat.sub (y1 rect) (y0 rect))) 1%float
   && PrimFloat.ltb 100%float (width rect))%bool.

(** The body of the inner loop: [drawing['items'][0][0] == 're'] and the
    geometric test, appending to [separators]. *)
Definition scan_drawing (page_num : nat) (separators : list separator)
           (d : drawing) : exc (list separator) :=
  first <- index (items d) 0 ;;
  match first with
  | re rect =>
      if is_thin_wide rect
      then Ok (separators ++ [mkSep page_num (y0 rect)])
      else Ok separators
  | _ => Ok separators
  end.

Definition scan_page (doc : Document) (separators : list separator)
           (page_num : nat) : exc (list separator) :=
  pg <- index doc page_num ;;
  for_each (get_drawings pg) (scan_drawing page_num) separators.

Definition above_border (sep : separator) : bool :=
  PrimFloat.ltb 50%float (y sep).

Definition find_artnet_separators (doc : Document) : exc (list separator) :=
  separators <- for_each (seq 0 (length doc)) (scan_page doc) [] ;;
  Ok (filter above_border separators).

(** ** Dictionaries

    A Python [dict] keeps its keys in insertion order, and assigning to a
    key that is already present keeps the key's position. *)

Module Dict.

Definition t : Type := list (string * string).

Fixpoint get (k : string) (d : t) : option string :=
  match d with
  | [] => None
  | (k', v) :: rest => if String.eqb k' k then Some v else get k rest
  end.

(** [k in d] *)
Definition mem (k : string) (d : t) : bool :=
  match get k d with
  | Some _ => true
  | None => false
  end.

(** [d[k] = v] *)
Fixpoint set (k v : string) (d : t) : t :=
  match d with
  | [] => [(k, v)]
  | (k', v') :: rest =>
      if String.eqb k' k then (k, v) :: rest else (k', v') :: set k v rest
  end.

Definition keys (d : t) : list string := map fst d.

End Dict.

(** ** Region Text Extractor (lines 55-77 of [get_artwork_info]) *)

Definition clipped_text (pg : Page) (top bottom : float) : string :=
  Str.strip (get_text pg (Some (mkClip 0%float top (page_width pg) bottom))).

(** The loop over the middle pages: [text += "\n" + page.get_text().strip()]. *)
Definition add_middle_page (doc : Document) (text : string) (page_num : nat)
  : exc string :=
  middle_page <- index doc page_num ;;
  Ok (text ++ Str.newline ++ Str.strip (get_text middle_page None))%string.

Definition region_text (doc : Document) (start_sep end_sep : separator)
  : exc string :=
  if page start_sep =? page end_sep then
    pg <- index doc (page start_sep) ;;
    Ok (clipped_text pg (y start_sep) (y end_sep))
  else
    first_page <- index doc (page start_sep) ;;
    let text := clipped_text first_page (y start_sep) (page_height first_page) in
    text <- for_each
              (seq (page start_sep + 1) (page end_sep - (page start_sep + 1)))
              (add_middle_page doc) text ;;
    if negb (page start_sep =? page end_sep) then
      last_page <- index doc (page end_sep) ;;
      Ok (text ++ Str.newline
               ++ clipped_text last_page 0%float (y end_sep))%string
    else Ok text.

(** ** Field Parser (lines 80-107 of [get_artwork_info]) *)

Definition ARTNET_CATEGORIES : list string :=
  ["Title"; "Description"; "Medium"; "Year of Work";
   "Size"; "Sale of"; "Estimate"; "Sold For"; "Misc."].

(** The [for field in ARTNET_CATEGORIES: if line.startswith(field): ...
    break] scan: the first label, in list order, that the line starts with. *)
Fixpoint first_label (labels : list string) (line : string) : option string :=
  match labels with
  | [] => None
  | field :: rest =>
      if Str.startswith line field then Some field else first_label rest line
  end.

(** [value = line[len(field):].strip()], then one leading colon removed. *)
Definition field_value (field line : string) : string :=
  let value := Str.strip (Str.drop (String.length field) line) in
  if Str.startswith value ":" then Str.strip (Str.drop 1 value) else value.

(** The loop state: the record under construction and [current_field]. *)
Record parser_state : Type := mkState {
  artwork : Dict.t;
  current_field : option string
}.

(** The artist look-back, run before the label scan of each line. *)
Definition infer_artist (lines : list string) (idx : nat) (line : string)
           (art : Dict.t) : Dict.t :=
  if Str.startswith line "Title" then
    if 0 <? idx then
      let artist_line := Str.strip (nth (idx - 1) lines "") in
      if existsb (Str.startswith artist_line) ARTNET_CATEGORIES then art
      else Dict.set "Artist" artist_line art
    else art
  else art.

(** One iteration of [for idx, line in enumerate(lines)]. *)
Definition parse_line (lines : list string) (st : parser_state)
           (entry : nat * string) : parser_state :=
  let idx := fst entry in
  let line := Str.strip (snd entry) in
  let art := infer_artist lines idx line (artwork st) in
  match first_label ARTNET_CATEGORIES line with
  | Some field =>
      mkState (Dict.set field (field_value field line) art) (Some field)
  | None =>
      match current_field st with
      | Some cur =>
          match Dict.get cur art with
          | Some old =>
              mkState (Dict.set cur (old ++ " " ++ line)%string art) (Some cur)
          | None => mkState art (Some cur)
          end
      | None => mkState art None
      end
  end.

Definition enumerate {A : Type} (xs : list A) : list (nat * A) :=
  combine (seq 0 (length xs)) xs.

(** The parsing half, entered when [text] is non-empty. *)
Definition parse_text (text : string) : Dict.t :=
  let lines := Str.split_lines text in
  artwork (fold_left (parse_line lines) (enumerate lines) (mkState [] None)).

(** [artwork] is bound only inside [if text:]; the final [return artwork]
    raises [UnboundLocalError] when the branch was not taken. *)
Definition get_artwork_info (doc : Document) (start_sep end_sep : separator)
  : exc Dict.t :=
  text <- region_text doc start_sep end_sep ;;
  if Str.truthy text then Ok (parse_text text) else Raise UnboundLocalError.

(** ** Regular expressions (the [re] module)

    A backtracking matcher with the priority order of [re]: alternatives
    left to right, greedy repetition longest first, lazy repetition
    shortest first; the first complete match found is the match.  An
    iteration of a repetition has to consume input, which every repeated
    item of the patterns below does. *)

Module Re.

Inductive regex : Type :=
| Eps
| Chr (accepts : ascii -> bool)
| Seq (r1 r2 : regex)
| Alt (r1 r2 : regex)
| Star (greedy : bool) (r : regex)
| Group (i : nat) (r : regex)
| Bol
| Eol.

(** Captured groups, most recent first. *)
Definition captures : Type := list (nat * string).

Fixpoint group (i : nat) (c : captures) : string :=
  match c with
  | [] => ""
  | (j, s) :: rest => if j =? i then s else group i rest
  end.

(** A match result: the end position and the groups. *)
Definition result : Type := option (nat * captures).

Definition cont : Type := nat -> string -> captures -> result.

Definition or_else (a : result) (b : unit -> result) : result :=
  match a with
  | Some x => Some x
  | None => b tt
  end.

(** [run r k pos s c] matches [r] at position [pos], where [s] is the
    input from [pos] on, and then continues with [k]. *)
Fixpoint run (r : regex) (k : cont) (pos : nat) (s : string) (c : captures)
  : result :=
  match r with
  | Eps => k pos s c
  | Chr accepts =>
      match s with
      | String a rest => if accepts a then k (S pos) rest c else None
      | EmptyString => None
      end
  | Seq r1 r2 => run r1 (run r2 k) pos s c
  | Alt r1 r2 => or_else (run r1 k pos s c) (fun _ => run r2 k pos s c)
  | Star greedy body =>
      (fix loop (fuel : nat) (pos : nat) (s : string) (c : captures) : result :=
         let again (_ : unit) : result :=
           match fuel with
           | 0 => None
           | S fuel' =>
               run body
                   (fun pos' s' c' =>
                      if String.length s' <? String.length s
                      then loop fuel' pos' s' c' else None)
                   pos s c
           end in
         if greedy then or_else (again tt) (fun _ => k pos s c)
         else or_else (k pos s c) again)
        (String.length s) pos s c
  | Group i body =>
      run body
          (fun pos' s' c' => k pos' s' ((i, Str.take (pos' - pos) s) :: c'))
          pos s c
  | Bol => if pos =? 0 then k pos s c else None
  | Eol =>
      match s with
      | EmptyString => k pos s c
      | String a EmptyString => if Ascii.eqb a Str.nl then k pos s c else None
      | _ => None
      end
  end.

Definition accept : cont := fun pos _ c => Some (pos, c).

(** [re.match(r, s)] *)
Definition re_match (r : regex) (s : string) : result :=
  run r accept 0 s [].

(** [re.search(r, s)]: the leftmost position with a match. *)
Fixpoint search_from (r : regex) (pos : nat) (s : string) : result :=
  match run r accept pos s [] with
  | Some m => Some m
  | None =>
      match s with
      | String _ rest => search_from r (S pos) rest
      | EmptyString => None
      end
  end.

Definition search (r : regex) (s : string) : result := search_from r 0 s.

(** [re.sub(r, repl, s)]: every non-overlapping match, left to right, is
    replaced; [fuel] bounds the number of steps by the input length. *)
Fixpoint sub_from (fuel : nat) (r : regex) (repl : string) (pos : nat)
         (s : string) : string :=
  match fuel with
  | 0 => s
  | S fuel' =>
      match run r accept pos s [] with
      | Some (stop, _) =>
          if pos <? stop
          then (repl ++ sub_from fuel' r repl stop (Str.drop (stop - pos) s))%string
          else match s with
               | String a rest =>
                   (repl ++ String a (sub_from fuel' r repl (S pos) rest))%string
               | EmptyString => repl
               end
      | None =>
          match s with
          | String a rest => String a (sub_from fuel' r repl (S pos) rest)
          | EmptyString => EmptyString
          end
      end
  end.

Definition sub (r : regex) (repl s : string) : string :=
  sub_from (S (String.length s)) r repl 0 s.

(** *** Pattern syntax *)

Definition plus (r : regex) : regex := Seq r (Star true r).

Fixpoint seqs (rs : list regex) : regex :=
  match rs with
  | [] => Eps
  | [r] => r
  | r :: rest => Seq r (seqs rest)
  end.

Fixpoint alts (rs : list regex) : regex :=
  match rs with
  | [] => Chr (fun _ => false)
  | [r] => r
  | r :: rest => Alt r (alts rest)
  end.

Definition char (a : ascii) : regex := Chr (Ascii.eqb a).

Definition between (lo hi : ascii) (a : ascii) : bool :=
  (nat_of_ascii lo <=? nat_of_ascii a) && (nat_of_ascii a <=? nat_of_ascii hi).

Definition is_digit : ascii -> bool := between "0" "9".

(** ASCII lower-casing; below code point 256 this is all the case folding
    that can make a character match an ASCII letter. *)
Definition lower (a : ascii) : ascii :=
  if between "A" "Z" a then ascii_of_nat (nat_of_ascii a + 32) else a.

Fixpoint lower_string (s : string) : string :=
  match s with
  | String a rest => String (lower a) (lower_string rest)
  | EmptyString => EmptyString
  end.

(** The dot: any character but a newline. *)
Definition dot : regex := Chr (fun a => negb (Ascii.eqb a Str.nl)).

(** [\s] *)
Definition space : regex := Chr Str.isspace.

(** A literal string, case-sensitive or under [re.IGNORECASE]. *)
Fixpoint literal (ignorecase : bool) (s : string) : regex :=
  match s with
  | EmptyString => Eps
  | String a rest =>
      Seq (if ignorecase
           then Chr (fun b => Ascii.eqb (lower b) (lower a))
           else char a)
          (literal ignorecase rest)
  end.

End Re.

(** ** Dates ([datetime.strptime] with the format ["%A, %B %d, %Y"])

    The library turns the format into the regular expression
    [(?P<A>...),\s+(?P<B>...)\s+(?P<d>...),\s+(?P<Y>\d\d\d\d)], compiled
    with [re.IGNORECASE] (English day and month names), requires the match
    to cover the whole input and then builds the date, which fails for a
    year or day out of range.  The weekday is not compared with the date. *)

Record date : Type := mkDate {
  year : nat;
  month : nat;
  day : nat
}.

Module Strptime.

Definition day_names : list string :=
  ["wednesday"; "thursday"; "saturday"; "tuesday"; "monday"; "friday"; "sunday"].

Definition month_names : list string :=
  ["january"; "february"; "march"; "april"; "may"; "june"; "july";
   "august"; "september"; "october"; "november"; "december"].

(** The alternation is tried longest name first. *)
Definition months_by_length : list string :=
  ["september"; "february"; "november"; "december"; "january"; "october";
   "august"; "march"; "april"; "june"; "july"; "may"].

Definition digit : Re.regex := Re.Chr Re.is_digit.

(** [3[0-1]|[1-2]\d|0[1-9]|[1-9]| [1-9]] *)
Definition day_regex : Re.regex :=
  Re.alts
    [Re.Seq (Re.char "3") (Re.Chr (Re.between "0" "1"));
     Re.Seq (Re.Chr (Re.between "1" "2")) digit;
     Re.Seq (Re.char "0") (Re.Chr (Re.between "1" "9"));
     Re.Chr (Re.between "1" "9");
     Re.Seq (Re.char " ") (Re.Chr (Re.between "1" "9"))].

Definition format_regex : Re.regex :=
  Re.seqs
    [Re.Group 1 (Re.alts (map (Re.literal true) day_names));
     Re.char ","; Re.plus Re.space;
     Re.Group 2 (Re.alts (map (Re.literal true) months_by_length));
     Re.plus Re.space;
     Re.Group 3 day_regex;
     Re.char ","; Re.plus Re.space;
     Re.Group 4 (Re.seqs [digit; digit; digit; digit])].

(** [int(s)] for a string of decimal digits with optional leading blanks. *)
Fixpoint int_acc (acc : nat) (s : string) : nat :=
  match s with
  | EmptyString => acc
  | String a rest =>
      if Re.is_digit a
      then int_acc (10 * acc + (nat_of_ascii a - 48)) rest
      else int_acc acc rest
  end.

Definition int (s : string) : nat := int_acc 0 s.

(** [month_names.index(name) + 1] *)
Fixpoint month_index (names : list string) (name : string) (i : nat) : nat :=
  match names with
  | [] => 0
  | n :: rest => if String.eqb n name then i else month_index rest name (S i)
  end.

Definition is_leap (y : nat) : bool :=
  (y mod 4 =? 0) && (negb (y mod 100 =? 0) || (y mod 400 =? 0)).

Definition days_in_month (y m : nat) : nat :=
  match m with
  | 2 => if is_leap y then 29 else 28
  | 4 | 6 | 9 | 11 => 30
  | _ => 31
  end.

(** [datetime.MAXYEAR], 9999. *)
Definition MAXYEAR : nat := 9 * 1111.

(** The range checks of the [date] constructor. *)
Definition valid_date (y m d : nat) : bool :=
  (1 <=? y) && (y <=? MAXYEAR) && (1 <=? m) && (m <=? 12)
  && (1 <=? d) && (d <=? days_in_month y m).

Definition strptime (data_string : string) : exc date :=
  match Re.re_match format_regex data_string with
  | None => Raise ValueError
  | Some (stop, found) =>
      if negb (String.length data_string =? stop) then Raise ValueError
      else
        let y := int (Re.group 4 found) in
        let m := month_index month_names (Re.lower_string (Re.group 2 found)) 1 in
        let d := int (Re.group 3 found) in
        if valid_date y m d then Ok (mkDate y m d) else Raise ValueError
  end.

End Strptime.

(** ** Cell values of the table *)

Inductive value : Type :=
| VStr (s : string)
| VNaN
| VNone
| VDate (d : date)
| VBool (b : bool)
| VInt (n : nat).

Module Show.

Definition digit_char (n : nat) : ascii := ascii_of_nat (48 + n mod 10).

(** The last [w] decimal digits of [n], zero padded. *)
Fixpoint fixed (w n : nat) : string :=
  match w with
  | 0 => EmptyString
  | S w' => (fixed w' (n / 10) ++ String (digit_char n) EmptyString)%string
  end.

Fixpoint decimal (fuel n : nat) : string :=
  match fuel with
  | 0 => EmptyString
  | S fuel' =>
      if n <? 10 then String (digit_char n) EmptyString
      else (decimal fuel' (n / 10) ++ String (digit_char n) EmptyString)%string
  end.

(** [str(v)] *)
Definition str (v : value) : string :=
  match v with
  | VStr s => s
  | VNaN => "nan"
  | VNone => "None"
  | VDate d =>
      (fixed 4 (year d) ++ "-" ++ fixed 2 (month d) ++ "-" ++ fixed 2 (day d)
       ++ " 00:00:00")%string
  | VBool true => "True"
  | VBool false => "False"
  | VInt n => decimal (S n) n
  end.

End Show.

(** ** Sale-Field Decomposer *)

(** The [pd.Series] with the four derived attributes. *)
Record Series : Type := mkSeries {
  auction_house : option string;
  sale_date : option date;
  lot_number : option string;
  is_online : bool
}.

Definition null_series : Series := mkSeries None None None false.

(** [[0-9A-Za-z\s]] *)
Definition lot_char (a : ascii) : bool :=
  Re.is_digit a || Re.between "A" "Z" a || Re.between "a" "z" a
  || Str.isspace a.

(** [^(.*?):\s*(.*?)\s*\[(Lot\s*[0-9A-Za-z\s]+)\](.*?)$] *)
Definition pattern : Re.regex :=
  Re.seqs
    [Re.Bol;
     Re.Group 1 (Re.Star false Re.dot);
     Re.char ":"; Re.Star true Re.space;
     Re.Group 2 (Re.Star false Re.dot);
     Re.Star true Re.space;
     Re.char "[";
     Re.Group 3 (Re.seqs [Re.literal false "Lot"; Re.Star true Re.space;
                          Re.plus (Re.Chr lot_char)]);
     Re.char "]";
     Re.Group 4 (Re.Star false Re.dot);
     Re.Eol].

(** [Lot\s*] *)
Definition lot_prefix : Re.regex :=
  Re.Seq (Re.literal false "Lot") (Re.Star true Re.space).

Definition online : Re.regex := Re.literal true "online".

(** The body of the [try] block. *)
Definition parse_sale_of_body (entry : value) : exc Series :=
  match Re.re_match pattern (Show.str entry) with
  | None => Ok (mkSeries None None None false)
  | Some (_, groups) =>
      let auction_house := Re.group 1 groups in
      let date_str := Re.group 2 groups in
      let lot_number := Re.group 3 groups in
      let description := Re.group 4 groups in
      date <- Strptime.strptime (Str.strip date_str) ;;
      let is_online :=
        match Re.search online description with
        | Some _ => true
        | None => false
        end in
      let lot_number := Str.strip (Re.sub lot_prefix "" lot_number) in
      Ok (mkSeries (Some (Str.strip auction_house)) (Some date)
                   (Some lot_number) is_online)
  end.

(** [try: ... except: return the all-null series]. *)
Definition parse_sale_of_column (entry : value) : Series :=
  match parse_sale_of_body entry with
  | Ok series => series
  | Raise _ => mkSeries None None None false
  end.

(** ** Tables ([pandas.DataFrame])

    A frame is its named columns, in order, each holding one value per
    row.  [DataFrame(results)] on a list of dictionaries takes the union
    of their keys in order of first appearance and fills absent keys with
    NaN. *)

Module Frame.

Record t : Type := mk {
  columns : list (string * list value);
  nrows : nat
}.

Definition names (df : t) : list string := map fst (columns df).

Definition add_name (seen : list string) (k : string) : list string :=
  if existsb (String.eqb k) seen then seen else seen ++ [k].

Definition first_seen (results : list Dict.t) : list string :=
  fold_left (fun seen d => fold_left add_name (Dict.keys d) seen) results [].

Definition cell (name : string) (d : Dict.t) : value :=
  match Dict.get name d with
  | Some s => VStr s
  | None => VNaN
  end.

(** [pd.DataFrame(results)] *)
Definition of_records (results : list Dict.t) : t :=
  mk (map (fun name => (name, map (cell name) results)) (first_seen results))
     (length results).

Fixpoint lookup (name : string) (cols : list (string * list value))
  : option (list value) :=
  match cols with
  | [] => None
  | (n, vs) :: rest => if String.eqb n name then Some vs else lookup name rest
  end.

(** [df[name]] *)
Definition getitem (df : t) (name : string) : exc (list value) :=
  match lookup name (columns df) with
  | Some vs => Ok vs
  | None => Raise (KeyError name)
  end.

Fixpoint assign (name : string) (vs : list value)
         (cols : list (string * list value)) : list (string * list value) :=
  match cols with
  | [] => [(name, vs)]
  | (n, old) :: rest =>
      if String.eqb n name then (n, vs) :: rest
      else (n, old) :: assign name vs rest
  end.

(** [df[name] = vs]: replaces the column or appends a new last column. *)
Definition setitem (df : t) (name : string) (vs : list value) : t :=
  mk (assign name vs (columns df)) (nrows df).

(** The written file: a header line and one line per row. *)
Record csv : Type := mkCsv {
  header : list string;
  lines : list (list value)
}.

Definition row (df : t) (i : nat) : list value :=
  map (fun col => nth i (snd col) VNaN) (columns df).

(** [df.to_csv(path, index=...)]; with [index=True] the row label comes
    first, under an empty header cell. *)
Definition to_csv (df : t) (with_index : bool) : csv :=
  if with_index
  then mkCsv ("" :: names df)
             (map (fun i => VInt i :: row df i) (seq 0 (nrows df)))
  else mkCsv (names df) (map (row df) (seq 0 (nrows df))).

End Frame.

(** ** Pipeline Driver *)

Definition endswith (s suffix : string) : bool :=
  (String.length suffix <=? String.length s)
  && String.eqb (Str.drop (String.length s - String.length suffix) s) suffix.

(** The body of [for i in range(len(separators) - 1)]. *)
Definition process_pair (doc : Document) (separators : list separator)
           (results : list Dict.t) (i : nat) : exc (list Dict.t) :=
  start_sep <- index separators i ;;
  end_sep <- index separators (i + 1) ;;
  art <- get_artwork_info doc start_sep end_sep ;;
  Ok (results ++ [art]).

(** The body of [for file in pdf_files], on the opened document. *)
Definition process_document (results : list Dict.t) (doc : Document)
  : exc (list Dict.t) :=
  separators <- find_artnet_separators doc ;;
  for_each (seq 0 (length separators - 1)) (process_pair doc separators) results.

(** The directory [data]: file names with the document each one opens as. *)
Definition directory : Type := list (string * Document).

Definition pdf_files (data : directory) : list (string * Document) :=
  filter (fun f => endswith (fst f) ".pdf") data.

(** The first half of [main]: the accumulated [results]. *)
Definition collect (data : directory) : exc (list Dict.t) :=
  for_each (map snd (pdf_files data)) process_document [].

Definition opt_str (o : option string) : value :=
  match o with
  | Some s => VStr s
  | None => VNone
  end.

Definition opt_date (o : option date) : value :=
  match o with
  | Some d => VDate d
  | None => VNone
  end.

(** The second half of [main]: frame, derived columns, written table. *)
Definition emit (results : list Dict.t) : exc Frame.csv :=
  let df := Frame.of_records results in
  sale_of <- Frame.getitem df "Sale of" ;;
  let parsed_columns := map parse_sale_of_column sale_of in
  let df := Frame.setitem df "auction_house"
              (map (fun x => opt_str (auction_house x)) parsed_columns) in
  let df := Frame.setitem df "sale_date"
              (map (fun x => opt_date (sale_date x)) parsed_columns) in
  let df := Frame.setitem df "lot_number"
              (map (fun x => opt_str (lot_number x)) parsed_columns) in
  let df := Frame.setitem df "is_online"
              (map (fun x => VBool (is_online x)) parsed_columns) in
  Ok (Frame.to_csv df false).

(** [main] returns the table it writes, or the exception that ends it. *)
Definition main (data : directory) : exc Frame.csv :=
  results <- collect data ;;
  emit results.

(** ** Specification-side definitions *)

(** A drawing is an entry divider when its first element is a rectangle
    less than one unit high and more than 100 units wide whose [y0] is
    above 50; the marker records that [y0]. *)
Definition qualifies (d : drawing) : option float :=
  match items d with
  | re rect :: _ =>
      if PrimFloat.ltb (PrimFloat.abs (PrimFloat.sub (y1 rect) (y0 rect))) 1%float
         && PrimFloat.ltb 100%float (width rect)
         && PrimFloat.ltb 50%float (y0 rect)
      then Some (y0 rect) else None
  | _ => None
  end.

Definition drawing_markers (page_num : nat) (d : drawing) : list separator :=
  match qualifies d with
  | Some y => [mkSep page_num y]
  | None => []
  end.

(** One marker per qualifying drawing, page by page, in scan order. *)
Definition expected_separators (doc : Document) : list separator :=
  flat_map (fun p => flat_map (drawing_markers (fst p)) (get_drawings (snd p)))
           (enumerate doc).

Definition has_first_item (d : drawing) : Prop := items d <> [].

Definition well_formed (doc : Document) : Prop :=
  Forall (fun pg => Forall has_first_item (get_drawings pg)) doc.

(** What the scan has appended for one drawing before border filtering. *)
Definition candidates (page_num : nat) (d : drawing) : list separator :=
  match items d with
  | re rect :: _ =>
      if is_thin_wide rect then [mkSep page_num (y0 rect)] else []
  | _ => []
  end.

(** The pages strictly between two page numbers, in increasing order. *)
Definition pages_between (doc : Document) (first last : nat) : list Page :=
  firstn (last - (first + 1)) (skipn (first + 1) doc).

Definition derived_columns : list string :=
  ["auction_house"; "sale_date"; "lot_number"; "is_online"].

(** The fixed column order: the nine labels, the artist, the derived four. *)
Definition fixed_columns : list string :=
  ARTNET_CATEGORIES ++ ["Artist"] ++ derived_columns.

(** The row of one record: its value, or NaN, under each record column,
    then the four attributes decomposed from its "Sale of" cell. *)
Definition expected_row (record_columns : list string) (d : Dict.t)
  : list value :=
  let sale := parse_sale_of_column (Frame.cell "Sale of" d) in
  map (fun name => Frame.cell name d) record_columns
  ++ [opt_str (auction_house sale); opt_date (sale_date sale);
      opt_str (lot_number sale); VBool (is_online sale)].

(** A record whose keys are among the nine labels and "Artist". *)
Definition known_keys (d : Dict.t) : Prop :=
  forall k, In k (Dict.keys d) -> In k ("Artist" :: ARTNET_CATEGORIES).

(** ** Sample documents *)

Module Sample.

(** A horizontal rule: half a unit high, 500 units wide. *)
Definition rule (top : float) : drawing :=
  mkDrawing [re (mkRect top (PrimFloat.add top 0.5%float) 500%float)].

Definition page_of (ds : list drawing) (text : option Clip -> string) : Page :=
  mkPage ds 612%float 792%float text.

(** Two rules with only blanks between them. *)
Definition empty_span : Document :=
  [page_of [rule 100%float; rule 200%float] (fun _ => "  ")].

Definition entry_text : string :=
  "Jane Doe" ++ Str.newline ++ "Title: Untitled" ++ Str.newline
  ++ "Sale of: Christie's: Wednesday, May 15, 2024 [Lot 42] (Online)".

(** Two rules around one entry. *)
Definition one_entry : Document :=
  [page_of [rule 100%float; rule 300%float] (fun _ => entry_text)].

(** One entry with a title and nothing else. *)
Definition no_sale : Document :=
  [page_of [rule 100%float; rule 300%float] (fun _ => "Title: Untitled")].

Definition region (name : string) (clip : option Clip) : string :=
  match clip with
  | None => " full " ++ name
  | Some c =>
      if PrimFloat.ltb (clip_y0 c) 1%float then "top " ++ name ++ " "
      else "bottom " ++ name
  end.

(** Three pages; the span runs from page 0 at 300 to page 2 at 100. *)
Definition three_pages : Document :=
  [page_of [rule 300%float] (region "p0");
   page_of [] (region "p1");
   page_of [rule 100%float] (region "p2")].

(** A border rule, an entry rule, a box, a short rule and a line. *)
Definition mixed : Document :=
  [page_of [rule 30%float;
            rule 120%float;
            mkDrawing [re (mkRect 200%float 260%float 500%float)];
            mkDrawing [re (mkRect 300%float 300%float 80%float)];
            mkDrawing [line_item; re (mkRect 400%float 400%float 500%float)]]
           (fun _ => "")].

Definition four_lines : string :=
  "Jane Doe" ++ Str.newline ++ "Title: Untitled" ++ Str.newline
  ++ "Description: Oil on canvas" ++ Str.newline ++ "more desc text".

End Sample.

(** ** Entry spans *)

(** Adjacent pairs of a list, in order: the entry spans of a document. *)
Fixpoint adjacent {A : Type} (xs : list A) : list (A * A) :=
  match xs with
  | [] => []
  | a :: rest =>
      match rest with
      | [] => []
      | b :: _ => (a, b) :: adjacent rest
      end
  end.

(** The loop body of [process_document], on a pair of separators. *)
Definition process_span (doc : Document) (results : list Dict.t)
           (span : separator * separator) : exc (list Dict.t) :=
  art <- get_artwork_info doc (fst span) (snd span) ;;
  Ok (results ++ [art]).

(** A string of white space only (the empty string included). *)
Fixpoint all_blank (s : string) : bool :=
  match s with
  | EmptyString => true
  | String c rest => Str.isspace c && all_blank rest
  end.

(** The page numbers of a list of separators never decrease. *)
Definition in_reading_order (separators : list separator) : Prop :=
  forall i j a b,
    i <= j -> nth_error separators i = Some a ->
    nth_error separators j = Some b -> page a <= page b.

(** Some drawing of some page has an empty item list. *)
Definition has_empty_drawing (doc : Document) : Prop :=
  exists pg d, In pg doc /\ In d (get_drawings pg) /\ items d = [].

(** ** Lines *)

(** A string without a newline character. *)
Fixpoint single_line (s : string) : bool :=
  match s with
  | EmptyString => true
  | String c rest => negb (Ascii.eqb c Str.nl) && single_line rest
  end.

(** A line that starts, once trimmed, with none of the nine labels. *)
Definition unlabelled (line : string) : Prop :=
  first_label ARTNET_CATEGORIES (Str.strip line) = None.

(** ** What a regular expression matches

    [matches r pos w rest c c'] says that [r], tried at position [pos] with
    groups [c], can consume [w] in front of [rest] and leave groups [c']. *)

Inductive matches :
  Re.regex -> nat -> string -> string -> Re.captures -> Re.captures -> Prop :=
| matches_eps pos rest c :
    matches Re.Eps pos EmptyString rest c c
| matches_chr accepts a pos rest c :
    accepts a = true ->
    matches (Re.Chr accepts) pos (String a EmptyString) rest c c
| matches_seq r1 r2 pos w1 w2 rest c c1 c2 :
    matches r1 pos w1 (w2 ++ rest)%string c c1 ->
    matches r2 (pos + String.length w1) w2 rest c1 c2 ->
    matches (Re.Seq r1 r2) pos (w1 ++ w2)%string rest c c2
| matches_alt_l r1 r2 pos w rest c c1 :
    matches r1 pos w rest c c1 ->
    matches (Re.Alt r1 r2) pos w rest c c1
| matches_alt_r r1 r2 pos w rest c c1 :
    matches r2 pos w rest c c1 ->
    matches (Re.Alt r1 r2) pos w rest c c1
| matches_star_stop greedy r pos rest c :
    matches (Re.Star greedy r) pos EmptyString rest c c
| matches_star_more greedy r pos w1 w2 rest c c1 c2 :
    matches r pos w1 (w2 ++ rest)%string c c1 ->
    matches (Re.Star greedy r) (pos + String.length w1) w2 rest c1 c2 ->
    matches (Re.Star greedy r) pos (w1 ++ w2)%string rest c c2
| matches_group i r pos w rest c c1 :
    matches r pos w rest c c1 ->
    matches (Re.Group i r) pos w rest c ((i, w) :: c1)
| matches_bol rest c :
    matches Re.Bol 0 EmptyString rest c c
| matches_eol pos rest c :
    rest = EmptyString \/ rest = Str.newline ->
    matches Re.Eol pos EmptyString rest c c.

(** A regular expression without capturing groups. *)
Fixpoint group_free (r : Re.regex) : bool :=
  match r with
  | Re.Seq r1 r2 | Re.Alt r1 r2 => group_free r1 && group_free r2
  | Re.Star _ body => group_free body
  | Re.Group _ _ => false
  | _ => true
  end.

(** [c in s] for a character. *)
Fixpoint contains (a : ascii) (s : string) : bool :=
  match s with
  | EmptyString => false
  | String b rest => Ascii.eqb a b || contains a rest
  end.

Unset Implicit Arguments.

(** * Properties *)

(** ** Loops and exceptions *)

(** A loop whose body only appends is a [flat_map]. *)
Lemma for_each_collect {A B : Type} (f : A -> list B)
      (body : list B -> A -> exc (list B)) (xs : list A) :
  (forall acc x, In x xs -> body acc x = Ok (acc ++ f x)) ->
  forall acc, for_each xs body acc = Ok (acc ++ flat_map f xs).
Proof.
  induction xs as [|x xs IH]; intros Hbody acc; simpl.
  - now rewrite app_nil_r.
  - rewrite Hbody by (now left). simpl.
    rewrite IH by (intros; apply Hbody; now right).
    now rewrite app_assoc.
Qed.

(** A loop reaches no result once one iteration raises from any state. *)
Lemma for_each_raises {A S : Type} (body : S -> A -> exc S) (xs : list A)
      (x : A) :
  In x xs ->
  (forall acc, exists e, body acc x = Raise e) ->
  forall acc, exists e, for_each xs body acc = Raise e.
Proof.
  induction xs as [|x' xs IH]; intros Hin Hx acc; [contradiction|].
  simpl. destruct Hin as [->|Hin].
  - destruct (Hx acc) as [e He]. rewrite He. now exists e.
  - destruct (body acc x') as [acc'|e]; simpl; [now apply IH | now exists e].
Qed.

(** A loop whose body appends one element per iteration. *)
Lemma for_each_length {A B : Type} (body : list B -> A -> exc (list B))
      (xs : list A) :
  (forall acc x acc', body acc x = Ok acc' -> length acc' = S (length acc)) ->
  forall acc out, for_each xs body acc = Ok out ->
                  length out = length acc + length xs.
Proof.
  intros Hbody. induction xs as [|x xs IH]; intros acc out H; simpl in *.
  - injection H as <-. lia.
  - destruct (body acc x) as [acc'|e] eqn:E; simpl in H; [|discriminate].
    apply IH in H. apply Hbody in E. lia.
Qed.

(** ** Float comparisons *)

Lemma SFcompare_antisym (a b : spec_float) (c : comparison) :
  SFcompare a b = Some c -> SFcompare b a = Some (CompOpp c).
Proof.
  destruct a as [sa|sa| |sa ma ea], b as [sb|sb| |sb mb eb]; simpl;
    try discriminate;
    try (destruct sa; intros [= <-]; reflexivity);
    try (destruct sb; intros [= <-]; reflexivity);
    try (destruct sa, sb; intros [= <-]; reflexivity).
  intros [= <-]. f_equal.
  destruct sa, sb; try reflexivity;
    rewrite (Z.compare_antisym ea eb);
    destruct (ea ?= eb)%Z; simpl; try reflexivity;
    rewrite ?(Pos.compare_cont_antisym ma mb Eq); reflexivity.
Qed.

(** [a <= b] excludes [b < a], also for infinities and signed zeros. *)
Lemma leb_not_gt (a b : float) :
  PrimFloat.leb a b = true -> PrimFloat.ltb b a = false.
Proof.
  rewrite leb_spec, ltb_spec. unfold SFleb, SFltb.
  destruct (SFcompare (Prim2SF a) (Prim2SF b)) as [c|] eqn:E; [|discriminate].
  apply SFcompare_antisym in E. rewrite E.
  destruct c; simpl; congruence.
Qed.

(** ** Separator Locator *)

Lemma in_combine_seq {A : Type} (xs : list A) (start i : nat) (x : A) :
  In (i, x) (combine (seq start (length xs)) xs)
  <-> start <= i /\ nth_error xs (i - start) = Some x.
Proof.
  revert start. induction xs as [|a xs IH]; intros start; simpl.
  - split; [contradiction|]. intros [_ H]. now destruct (i - start).
  - rewrite IH. split.
    + intros [[= <- <-]|[Hle H]].
      * now rewrite Nat.sub_diag.
      * split; [lia|]. replace (i - start) with (S (i - S start)) by lia.
        exact H.
    + intros [Hle H]. destruct (i - start) as [|k] eqn:E.
      * left. injection H as <-. f_equal. lia.
      * right. split; [lia|]. now replace (i - S start) with k by lia.
Qed.

Lemma in_enumerate {A : Type} (xs : list A) (i : nat) (x : A) :
  In (i, x) (enumerate xs) <-> nth_error xs i = Some x.
Proof.
  unfold enumerate. rewrite in_combine_seq, Nat.sub_0_r.
  split; [now intros [_ H] | intros H; split; [lia | exact H]].
Qed.

Lemma filter_flat_map {A B : Type} (p : B -> bool) (f : A -> list B)
      (xs : list A) :
  filter p (flat_map f xs) = flat_map (fun x => filter p (f x)) xs.
Proof.
  induction xs as [|x xs IH]; simpl; [reflexivity|].
  now rewrite filter_app, IH.
Qed.

Lemma scan_drawing_candidates (page_num : nat) (acc : list separator)
      (d : drawing) :
  has_first_item d ->
  scan_drawing page_num acc d = Ok (acc ++ candidates page_num d).
Proof.
  unfold has_first_item, scan_drawing, candidates, index.
  destruct (items d) as [|first rest]; [congruence|]; intros _; simpl.
  destruct first as [rect| | |]; try now rewrite app_nil_r.
  destruct (is_thin_wide rect); [reflexivity | now rewrite app_nil_r].
Qed.

Lemma scan_page_candidates (doc : Document) (acc : list separator)
      (page_num : nat) (pg : Page) :
  nth_error doc page_num = Some pg ->
  Forall has_first_item (get_drawings pg) ->
  scan_page doc acc page_num
  = Ok (acc ++ flat_map (candidates page_num) (get_drawings pg)).
Proof.
  intros Hnth Hwf. unfold scan_page, index. rewrite Hnth. simpl.
  apply for_each_collect. intros acc' d Hin.
  apply scan_drawing_candidates.
  rewrite Forall_forall in Hwf. now apply Hwf.
Qed.

(** The page loop, started after the pages [done] that precede [todo]. *)
Lemma scan_pages_candidates (done todo : list Page) (acc : list separator) :
  well_formed todo ->
  for_each (seq (length done) (length todo)) (scan_page (done ++ todo)) acc
  = Ok (acc ++ flat_map
                 (fun p => flat_map (candidates (fst p)) (get_drawings (snd p)))
                 (combine (seq (length done) (length todo)) todo)).
Proof.
  revert done acc. induction todo as [|pg todo IH]; intros done acc Hwf; simpl.
  - now rewrite app_nil_r.
  - inversion Hwf as [|? ? Hpg Hrest]; subst.
    rewrite (@scan_page_candidates _ _ _ pg); trivial.
    + simpl. specialize (IH (done ++ [pg]) (acc ++ flat_map (candidates (length done)) (get_drawings pg)) Hrest).
      rewrite <- app_assoc, length_app in IH. simpl in IH.
      rewrite Nat.add_1_r in IH. rewrite IH. now rewrite app_assoc.
    + rewrite nth_error_app2 by lia. now rewrite Nat.sub_diag.
Qed.

Lemma border_filter_candidates (page_num : nat) (d : drawing) :
  filter above_border (candidates page_num d) = drawing_markers page_num d.
Proof.
  unfold candidates, drawing_markers, qualifies.
  destruct (items d) as [|[rect| | |] rest]; try reflexivity.
  unfold is_thin_wide.
  destruct (PrimFloat.ltb (PrimFloat.abs (PrimFloat.sub (y1 rect) (y0 rect))) 1);
    simpl; [|reflexivity].
  destruct (PrimFloat.ltb 100 (width rect)); simpl; [|reflexivity].
  unfold above_border; simpl.
  now destruct (PrimFloat.ltb 50 (y0 rect)).
Qed.

Lemma find_artnet_separators_expected (doc : Document) :
  well_formed doc ->
  find_artnet_separators doc = Ok (expected_separators doc).
Proof.
  intros Hwf. unfold find_artnet_separators.
  pose proof (scan_pages_candidates [] doc [] Hwf) as Hscan.
  simpl in Hscan. rewrite Hscan. simpl.
  unfold expected_separators, enumerate. f_equal.
  rewrite filter_flat_map. apply flat_map_ext. intros [n pg]. simpl.
  rewrite filter_flat_map. apply flat_map_ext. intros d.
  apply border_filter_candidates.
Qed.

(** C5. On a document whose drawings all have a first element, the
    Separator Locator returns one marker, in scan order, for exactly the
    drawings whose first element is a rectangle less than one unit high,
    more than 100 units wide and with [y0] above 50; a drawing whose first
    rectangle has [y0 <= 50], or width [<= 100], or height [>= 1]
    contributes no marker, and neither does one whose first element is not
    a rectangle. *)
Theorem separator_locator_exact (doc : Document) :
  well_formed doc ->
  find_artnet_separators doc = Ok (expected_separators doc)
  /\ (forall sep, In sep (expected_separators doc) <->
        exists pg d rect rest,
          nth_error doc (page sep) = Some pg /\ In d (get_drawings pg)
          /\ items d = re rect :: rest /\ y sep = y0 rect
          /\ PrimFloat.ltb (PrimFloat.abs (PrimFloat.sub (y1 rect) (y0 rect))) 1
             = true
          /\ PrimFloat.ltb 100 (width rect) = true
          /\ PrimFloat.ltb 50 (y0 rect) = true)
  /\ (forall page_num d rect rest,
        items d = re rect :: rest ->
        PrimFloat.leb (y0 rect) 50 = true
        \/ PrimFloat.leb (width rect) 100 = true
        \/ PrimFloat.leb 1 (PrimFloat.abs (PrimFloat.sub (y1 rect) (y0 rect)))
           = true ->
        drawing_markers page_num d = [])
  /\ (forall page_num d,
        (forall rect rest, items d <> re rect :: rest) ->
        drawing_markers page_num d = []).
Proof.
  intros Hwf. split; [now apply find_artnet_separators_expected|].
  split; [|split].
  - intros [n y]. unfold expected_separators. rewrite in_flat_map. simpl. split.
    + intros [[i pg] [Hin Hd]]. simpl in Hd.
      apply in_flat_map in Hd. destruct Hd as [d [Hd Hm]].
      unfold drawing_markers, qualifies in Hm.
      destruct (items d) as [|[rect| | |] rest] eqn:Hit; try contradiction.
      destruct (PrimFloat.ltb _ 1) eqn:E1; simpl in Hm; [|contradiction].
      destruct (PrimFloat.ltb 100 _) eqn:E2; simpl in Hm; [|contradiction].
      destruct (PrimFloat.ltb 50 _) eqn:E3; simpl in Hm; [|contradiction].
      destruct Hm as [Hm|[]]. injection Hm as <- <-.
      exists pg, d, rect, rest. repeat split; trivial.
      now apply in_enumerate.
    + intros (pg & d & rect & rest & Hnth & Hd & Hit & Hy & E1 & E2 & E3).
      simpl in Hnth, Hy. exists (n, pg). split.
      * now apply in_enumerate.
      * simpl. apply in_flat_map. exists d. split; trivial.
        unfold drawing_markers, qualifies. rewrite Hit, E1, E2, E3. simpl.
        left. now rewrite Hy.
  - intros n d rect rest Hit Hex.
    unfold drawing_markers, qualifies. rewrite Hit.
    destruct Hex as [H|[H|H]]; apply leb_not_gt in H; rewrite H;
      now rewrite ?andb_false_r.
  - intros n d Hno. unfold drawing_markers, qualifies.
    destruct (items d) as [|[rect| | |] rest]; try reflexivity.
    now destruct (Hno rect rest).
Qed.

Ltac solve_well_formed :=
  repeat (constructor; try (unfold has_first_item; simpl; discriminate)).

Lemma separator_locator_exact_witness :
  well_formed Sample.mixed
  /\ find_artnet_separators Sample.mixed = Ok [mkSep 0 120%float].
Proof.
  assert (Hwf : well_formed Sample.mixed) by solve_well_formed.
  split; [exact Hwf|].
  destruct (separator_locator_exact Sample.mixed Hwf) as [Hfind _].
  rewrite Hfind. reflexivity.
Defined.

(** ** Field Parser *)

Lemma startswith_prefix (s p : string) :
  Str.startswith s p = true -> s = (p ++ Str.drop (String.length p) s)%string.
Proof.
  revert s. induction p as [|b p IH]; intros s H; simpl in *; [reflexivity|].
  destruct s as [|a s]; [discriminate|].
  apply andb_prop in H. destruct H as [Hab Hs].
  apply Ascii.eqb_eq in Hab. subst b. simpl. f_equal. now apply IH.
Qed.

(** The label scan returns the first label, in list order, that is a
    prefix of the line. *)
Lemma first_label_spec (labels : list string) (line field : string) :
  first_label labels line = Some field <->
  exists before after,
    labels = before ++ field :: after
    /\ Str.startswith line field = true
    /\ forall f, In f before -> Str.startswith line f = false.
Proof.
  induction labels as [|l labels IH]; simpl.
  - split; [discriminate|]. intros (before & after & H & _).
    now destruct before.
  - destruct (Str.startswith line l) eqn:E.
    + split.
      * intros [= <-]. exists [], labels. repeat split; trivial.
        intros f [].
      * intros (before & after & Heq & Hf & Hb).
        destruct before as [|b before]; simpl in Heq;
          injection Heq as Hl Hlabels.
        -- now rewrite Hl.
        -- rewrite (Hb l) in E by (left; now symmetry). discriminate.
    + rewrite IH. split.
      * intros (before & after & -> & Hf & Hb).
        exists (l :: before), after. repeat split; trivial.
        intros f [<-|Hin]; auto.
      * intros (before & after & Heq & Hf & Hb).
        destruct before as [|b before]; simpl in Heq;
          injection Heq as Hl Hlabels.
        -- congruence.
        -- exists before, after. repeat split; trivial.
           intros f Hin. apply Hb. now right.
Qed.

Lemma sold_for_label (line : string) :
  Str.startswith line "Sold For" = true ->
  first_label ARTNET_CATEGORIES line = Some "Sold For"
  /\ Str.startswith line "Title" = false.
Proof.
  intros H. apply startswith_prefix in H. rewrite H. split; reflexivity.
Qed.

Lemma rstrip_cons_nonspace (c : ascii) (s : string) :
  Str.isspace c = false -> Str.rstrip (String c s) = String c (Str.rstrip s).
Proof.
  intros H. simpl. rewrite H. now destruct (Str.rstrip s).
Qed.

Lemma rstrip_cons_nonempty (c : ascii) (s : string) :
  Str.rstrip s <> EmptyString -> Str.rstrip (String c s) = String c (Str.rstrip s).
Proof.
  intros H. simpl. destruct (Str.rstrip s); [now destruct H | reflexivity].
Qed.

(** Trimming keeps a leading "Sold For". *)
Lemma strip_keeps_sold_for (raw : string) :
  Str.startswith raw "Sold For" = true ->
  Str.startswith (Str.strip raw) "Sold For" = true.
Proof.
  intros H. apply startswith_prefix in H. rewrite H.
  generalize (Str.drop (String.length "Sold For") raw) as rest.
  clear. intros rest. unfold Str.strip.
  change (Str.lstrip ("Sold For" ++ rest))
    with (String "S" ("old For" ++ rest))%string.
  change ("old For" ++ rest)%string
    with (String "o" (String "l" (String "d" (String " " ("For" ++ rest)))))%string.
  rewrite !rstrip_cons_nonspace by reflexivity.
  rewrite rstrip_cons_nonempty.
  - change ("For" ++ rest)%string
      with (String "F" (String "o" (String "r" rest))).
    rewrite !rstrip_cons_nonspace by reflexivity. reflexivity.
  - change ("For" ++ rest)%string with (String "F" ("or" ++ rest))%string.
    rewrite rstrip_cons_nonspace by reflexivity. discriminate.
Qed.

Lemma dict_get_set_same (k v : string) (d : Dict.t) :
  Dict.get k (Dict.set k v d) = Some v.
Proof.
  induction d as [|[k' v'] d IH]; simpl.
  - now rewrite String.eqb_refl.
  - destruct (String.eqb k' k) eqn:E; simpl.
    + now rewrite String.eqb_refl.
    + now rewrite E.
Qed.

Lemma dict_get_set_other (k k' v : string) (d : Dict.t) :
  k' <> k -> Dict.get k' (Dict.set k v d) = Dict.get k' d.
Proof.
  intros Hne. induction d as [|[k0 v0] d IH]; simpl.
  - destruct (String.eqb k k') eqn:E; [|reflexivity].
    apply String.eqb_eq in E. congruence.
  - destruct (String.eqb k0 k) eqn:E; simpl.
    + apply String.eqb_eq in E. subst k0.
      destruct (String.eqb k k') eqn:E'; [|reflexivity].
      apply String.eqb_eq in E'. congruence.
    + now rewrite IH.
Qed.

(** C4. The label scan tests the nine labels in the order Title,
    Description, Medium, Year of Work, Size, Sale of, Estimate, Sold For,
    Misc. and stops at the first one the line starts with; a line that
    starts with "Sold For" is filed under "Sold For": that field is set
    from the line, it becomes the current field, and no other field of the
    record changes. *)
Theorem label_priority :
  ARTNET_CATEGORIES
  = ["Title"; "Description"; "Medium"; "Year of Work"; "Size"; "Sale of";
     "Estimate"; "Sold For"; "Misc."]
  /\ (forall line field,
        first_label ARTNET_CATEGORIES line = Some field <->
        exists before after,
          ARTNET_CATEGORIES = before ++ field :: after
          /\ Str.startswith line field = true
          /\ forall f, In f before -> Str.startswith line f = false)
  /\ (forall lines st idx raw field,
        first_label ARTNET_CATEGORIES (Str.strip raw) = Some field ->
        let st' := parse_line lines st (idx, raw) in
        current_field st' = Some field
        /\ Dict.get field (artwork st')
           = Some (field_value field (Str.strip raw)))
  /\ (forall lines st idx raw,
        Str.startswith raw "Sold For" = true ->
        let st' := parse_line lines st (idx, raw) in
        current_field st' = Some "Sold For"
        /\ Dict.get "Sold For" (artwork st')
           = Some (field_value "Sold For" (Str.strip raw))
        /\ forall k, k <> "Sold For" ->
                     Dict.get k (artwork st') = Dict.get k (artwork st)).
Proof.
  split; [reflexivity|]. split; [|split].
  - intros line field. apply first_label_spec.
  - intros lines st idx raw field Hlabel.
    unfold parse_line. simpl fst. simpl snd. rewrite Hlabel. simpl.
    split; [reflexivity | apply dict_get_set_same].
  - intros lines st idx raw Hraw.
    apply strip_keeps_sold_for in Hraw.
    destruct (sold_for_label _ Hraw) as [Hlabel Htitle].
    unfold parse_line, infer_artist. simpl fst. simpl snd.
    rewrite Hlabel, Htitle. simpl. split; [reflexivity|]. split.
    + apply dict_get_set_same.
    + intros k Hk. now apply dict_get_set_other.
Qed.

Lemma label_priority_witness :
  Str.startswith "Sold For: 1,200 USD" "Sold For" = true
  /\ current_field
       (parse_line [] (mkState [("Sale of", "x")] (Some "Sale of"))
                   (0, "Sold For: 1,200 USD"))
     = Some "Sold For".
Proof.
  split; [reflexivity|].
  destruct label_priority as (_ & _ & _ & Hsold).
  exact (proj1 (Hsold [] (mkState [("Sale of", "x")] (Some "Sale of")) 0
                      "Sold For: 1,200 USD" eq_refl)).
Defined.

(** C3. The Field Parser maps the four lines "Jane Doe", "Title:
    Untitled", "Description: Oil on canvas", "more desc text" to the
    record with Artist "Jane Doe", Title "Untitled" and Description "Oil
    on canvas more desc text", and nothing else. *)
Theorem field_parser_example :
  Sample.four_lines
  = String.concat Str.newline
      ["Jane Doe"; "Title: Untitled"; "Description: Oil on canvas";
       "more desc text"]
  /\ parse_text Sample.four_lines
     = [("Artist", "Jane Doe"); ("Title", "Untitled");
        ("Description", "Oil on canvas more desc text")].
Proof. split; vm_compute; reflexivity. Qed.

(** ** Sale-Field Decomposer *)

(** C7. The decomposer maps "Christie's: Wednesday, May 15, 2024 [Lot 42]
    (Online)" to auction house "Christie's", sale date 2024-05-15, lot
    number "42" and the online flag set. *)
Theorem sale_of_example :
  parse_sale_of_column
    (VStr "Christie's: Wednesday, May 15, 2024 [Lot 42] (Online)")
  = mkSeries (Some "Christie's") (Some (mkDate 2024 5 15)) (Some "42") true.
Proof. vm_compute. reflexivity. Qed.

(** C2. Whenever the pattern does not match, or the pattern matches and
    the date text does not parse, or the body of the [try] block raises
    anything at all, the decomposer returns the all-null series with the
    online flag cleared; every result is either that series or one with
    auction house, sale date and lot number all present; "N/A" gives the
    all-null series. *)
Theorem sale_of_atomic_fallback (entry : value) :
  (Re.re_match pattern (Show.str entry) = None ->
   parse_sale_of_column entry = mkSeries None None None false)
  /\ (forall stop groups e,
        Re.re_match pattern (Show.str entry) = Some (stop, groups) ->
        Strptime.strptime (Str.strip (Re.group 2 groups)) = Raise e ->
        parse_sale_of_column entry = mkSeries None None None false)
  /\ (forall e,
        parse_sale_of_body entry = Raise e ->
        parse_sale_of_column entry = mkSeries None None None false)
  /\ (parse_sale_of_column entry = mkSeries None None None false
      \/ exists house when lot flag,
           parse_sale_of_column entry
           = mkSeries (Some house) (Some when) (Some lot) flag)
  /\ parse_sale_of_column (VStr "N/A") = mkSeries None None None false.
Proof.
  unfold parse_sale_of_column, parse_sale_of_body.
  repeat split.
  - now intros ->.
  - intros stop groups e -> ->. reflexivity.
  - now intros e ->.
  - destruct (Re.re_match pattern (Show.str entry)) as [[stop groups]|];
      [|now left].
    destruct (Strptime.strptime _) as [d|e]; simpl; [|now left].
    right. eauto.
Qed.

Lemma sale_of_atomic_fallback_witness :
  parse_sale_of_column (VStr "Phillips: Someday, May 15, 2024 [Lot 7]")
  = mkSeries None None None false.
Proof.
  destruct (sale_of_atomic_fallback
              (VStr "Phillips: Someday, May 15, 2024 [Lot 7]"))
    as (_ & Hdate & _).
  apply (Hdate 39 [(4, ""); (3, "Lot 7"); (2, "Someday, May 15, 2024");
                   (1, "Phillips")] ValueError); vm_compute; reflexivity.
Defined.

(** ** Region Text Extractor *)

Lemma append_assoc (a b c : string) :
  ((a ++ b) ++ c = a ++ (b ++ c))%string.
Proof. induction a as [|x a IH]; simpl; [reflexivity | now rewrite IH]. Qed.

Lemma append_empty_r (a : string) : (a ++ "")%string = a.
Proof. induction a as [|x a IH]; simpl; [reflexivity | now rewrite IH]. Qed.

(** Appending pieces, each behind a newline, to a non-empty join. *)
Lemma concat_newline_app (first : string) (pieces more : list string) :
  (String.concat Str.newline (first :: pieces ++ more)
   = String.concat Str.newline (first :: pieces)
     ++ String.concat "" (map (String.append Str.newline) more))%string.
Proof.
  revert first. induction pieces as [|p pieces IH]; intros first.
  - simpl app. revert first. induction more as [|m more IHm]; intros first.
    + simpl. now rewrite append_empty_r.
    + change (String.concat Str.newline (first :: m :: more))
        with (first ++ Str.newline ++ String.concat Str.newline (m :: more))%string.
      rewrite IHm. simpl String.concat at 1.
       change (map (String.append Str.newline) (m :: more))
        with ((Str.newline ++ m)%string :: map (String.append Str.newline) more).
      destruct more as [|m' more].
      * simpl. now rewrite !append_empty_r.
      * change (String.concat "" ((Str.newline ++ m)%string
                   :: map (String.append Str.newline) (m' :: more)))
          with ((Str.newline ++ m) ++ "" ++
                String.concat "" (map (String.append Str.newline) (m' :: more)))%string.
        simpl String.append at 4. now rewrite !append_assoc.
  - change (String.concat Str.newline (first :: (p :: pieces) ++ more))
      with (first ++ Str.newline
            ++ String.concat Str.newline (p :: pieces ++ more))%string.
    rewrite IH.
    change (String.concat Str.newline (first :: p :: pieces))
      with (first ++ Str.newline ++ String.concat Str.newline (p :: pieces))%string.
    now rewrite !append_assoc.
Qed.

Lemma skipn_nth_error {A : Type} (xs : list A) (n : nat) (x : A) :
  nth_error xs n = Some x -> skipn n xs = x :: skipn (S n) xs.
Proof.
  revert xs. induction n as [|n IH]; intros [|a xs] H; try discriminate.
  - now injection H as ->.
  - simpl in H. apply IH in H. exact H.
Qed.

(** The loop over the middle pages appends, page by page, a newline and
    the trimmed full-page text. *)
Lemma middle_pages_loop (doc : Document) (count from : nat) (text : string) :
  from + count <= length doc ->
  for_each (seq from count) (add_middle_page doc) text
  = Ok (fold_left
          (fun t pg => (t ++ Str.newline ++ Str.strip (get_text pg None))%string)
          (firstn count (skipn from doc)) text).
Proof.
  revert from text. induction count as [|count IH]; intros from text Hlen.
  - reflexivity.
  - destruct (nth_error doc from) as [pg|] eqn:Hnth.
    + rewrite (skipn_nth_error _ _ _ Hnth). simpl.
      unfold add_middle_page at 1, index. rewrite Hnth. simpl.
      now rewrite IH by lia.
    + apply nth_error_None in Hnth. lia.
Qed.

Lemma concat_newline_snoc (first : string) (done : list string) (p : string) :
  (String.concat Str.newline (first :: done ++ [p])
   = String.concat Str.newline (first :: done) ++ Str.newline ++ p)%string.
Proof.
  rewrite concat_newline_app. simpl map. simpl String.concat at 2.
  reflexivity.
Qed.

Lemma fold_concat_newline (first : string) (done pieces : list string) :
  fold_left (fun t piece => (t ++ Str.newline ++ piece)%string) pieces
            (String.concat Str.newline (first :: done))
  = String.concat Str.newline (first :: done ++ pieces).
Proof.
  revert done. induction pieces as [|p pieces IH]; intros done.
  - now rewrite app_nil_r.
  - cbn [fold_left]. rewrite <- concat_newline_snoc, IH.
    now rewrite <- app_assoc.
Qed.

Lemma fold_left_map {A B C : Type} (f : C -> B -> C) (g : A -> B)
      (xs : list A) (c : C) :
  fold_left (fun acc x => f acc (g x)) xs c = fold_left f (map g xs) c.
Proof. revert c. induction xs as [|x xs IH]; intros c; simpl; auto. Qed.

(** C6. For a span that starts on an earlier page than it ends on, the
    extracted text is the newline-joined sequence of: the trimmed text of
    the start page clipped from [start.y] to the page bottom, the trimmed
    full text of every page strictly between the two, in increasing page
    order, and the trimmed text of the end page clipped from 0 to
    [end.y]. *)
Theorem region_text_cross_page (doc : Document) (start_sep end_sep : separator)
        (first_page last_page : Page) :
  page start_sep < page end_sep ->
  nth_error doc (page start_sep) = Some first_page ->
  nth_error doc (page end_sep) = Some last_page ->
  region_text doc start_sep end_sep
  = Ok (String.concat Str.newline
          ([Str.strip (get_text first_page
                         (Some (mkClip 0 (y start_sep) (page_width first_page)
                                       (page_height first_page))))]
           ++ map (fun pg => Str.strip (get_text pg None))
                  (pages_between doc (page start_sep) (page end_sep))
           ++ [Str.strip (get_text last_page
                            (Some (mkClip 0 0 (page_width last_page)
                                          (y end_sep))))])).
Proof.
  intros Hlt Hfirst Hlast. unfold region_text.
  assert (Hneq : (page start_sep =? page end_sep) = false)
    by (apply Nat.eqb_neq; lia).
  rewrite Hneq. unfold index at 1. rewrite Hfirst. simpl bind.
  assert (Hend : page end_sep < length doc)
    by (apply nth_error_Some; congruence).
  rewrite middle_pages_loop by lia. simpl bind. simpl negb. cbv iota.
  unfold index. rewrite Hlast. simpl bind. f_equal.
  unfold clipped_text, pages_between.
  set (a := Str.strip (get_text first_page _)).
  set (z := Str.strip (get_text last_page _)).
  set (middle := firstn _ _).
  rewrite (fold_left_map (fun t piece => (t ++ Str.newline ++ piece)%string)
                         (fun pg => Str.strip (get_text pg None))).
  change a with (String.concat Str.newline (a :: [])) at 1.
  rewrite fold_concat_newline. simpl app.
  now rewrite concat_newline_snoc.
Qed.

Lemma region_text_cross_page_witness :
  region_text Sample.three_pages (mkSep 0 300%float) (mkSep 2 100%float)
  = Ok (String.concat Str.newline ["bottom p0"; "full p1"; "top p2"]).
Proof.
  refine (eq_trans
            (region_text_cross_page Sample.three_pages
               (mkSep 0 300%float) (mkSep 2 100%float) _ _ _ eq_refl eq_refl)
            _).
  - simpl. lia.
  - reflexivity.
Defined.

(** ** Pipeline Driver: entry spans *)

Lemma process_pair_length (doc : Document) (separators : list separator)
      (acc : list Dict.t) (i : nat) (acc' : list Dict.t) :
  process_pair doc separators acc i = Ok acc' -> length acc' = S (length acc).
Proof.
  unfold process_pair.
  destruct (index separators i) as [s|]; simpl; [|discriminate].
  destruct (index separators (i + 1)) as [e|]; simpl; [|discriminate].
  destruct (get_artwork_info doc s e); simpl; [|discriminate].
  intros [= <-]. rewrite length_app. simpl. lia.
Qed.

(** When a document is processed to the end, it has added one record per
    adjacent pair of separators. *)
Lemma process_document_count (doc : Document) (separators : list separator)
      (results out : list Dict.t) :
  find_artnet_separators doc = Ok separators ->
  process_document results doc = Ok out ->
  length out = length results + (length separators - 1).
Proof.
  intros Hfind. unfold process_document. rewrite Hfind. simpl. intros H.
  apply for_each_length in H.
  - now rewrite length_seq in H.
  - apply process_pair_length.
Qed.

(** A document without separators adds nothing and raises nothing. *)
Lemma no_separators_no_records (doc : Document) (results : list Dict.t) :
  find_artnet_separators doc = Ok [] ->
  process_document results doc = Ok results.
Proof. unfold process_document. now intros ->. Qed.

Lemma empty_text_unbound (doc : Document) (start_sep end_sep : separator) :
  region_text doc start_sep end_sep = Ok "" ->
  get_artwork_info doc start_sep end_sep = Raise UnboundLocalError.
Proof. unfold get_artwork_info. now intros ->. Qed.

(** C9. When the trimmed text between two adjacent separators of a
    document is empty, [get_artwork_info] raises [UnboundLocalError]
    instead of returning a record, the processing of that document ends in
    an exception whatever was accumulated before, and so does a run of
    [main] over a directory that holds the document as a PDF file. *)
Theorem empty_span_aborts (doc : Document) (separators : list separator)
        (i : nat) (start_sep end_sep : separator) :
  find_artnet_separators doc = Ok separators ->
  nth_error separators i = Some start_sep ->
  nth_error separators (i + 1) = Some end_sep ->
  region_text doc start_sep end_sep = Ok "" ->
  get_artwork_info doc start_sep end_sep = Raise UnboundLocalError
  /\ (forall results, exists e, process_document results doc = Raise e)
  /\ (forall data name,
        In (name, doc) data -> endswith name ".pdf" = true ->
        exists e, main data = Raise e).
Proof.
  intros Hfind Hstart Hend Hempty.
  assert (Hinfo := empty_text_unbound _ _ _ Hempty).
  assert (Hdoc : forall results, exists e, process_document results doc = Raise e).
  { intros results. unfold process_document. rewrite Hfind. simpl.
    apply for_each_raises with (x := i).
    - apply in_seq. assert (i + 1 < length separators)
        by (apply nth_error_Some; congruence). lia.
    - intros acc. exists UnboundLocalError. unfold process_pair, index.
      rewrite Hstart, Hend. simpl. now rewrite Hinfo. }
  split; [exact Hinfo|]. split; [exact Hdoc|].
  intros data name Hin Hpdf. unfold main, collect.
  destruct (for_each_raises process_document (map snd (pdf_files data)) doc)
    with (acc := @nil Dict.t) as [e He]; trivial.
  - apply in_map_iff. exists (name, doc). split; [reflexivity|].
    apply filter_In. now split.
  - rewrite He. now exists e.
Qed.

Lemma empty_span_aborts_witness :
  get_artwork_info Sample.empty_span (mkSep 0 100%float) (mkSep 0 200%float)
  = Raise UnboundLocalError.
Proof.
  exact (proj1 (empty_span_aborts Sample.empty_span
                  [mkSep 0 100%float; mkSep 0 200%float] 0
                  (mkSep 0 100%float) (mkSep 0 200%float)
                  eq_refl eq_refl eq_refl eq_refl)).
Defined.

(** C1 at a document with two rules and only blanks between them: the
    locator finds two separators, but no record is produced for the one
    span; the run ends in [UnboundLocalError]. *)
Theorem blank_span_yields_no_record :
  find_artnet_separators Sample.empty_span
  = Ok [mkSep 0 100%float; mkSep 0 200%float]
  /\ region_text Sample.empty_span (mkSep 0 100%float) (mkSep 0 200%float)
     = Ok ""
  /\ process_document [] Sample.empty_span = Raise UnboundLocalError
  /\ main [("catalog.pdf", Sample.empty_span)] = Raise UnboundLocalError.
Proof. repeat split; vm_compute; reflexivity. Qed.

(** ** Tables *)

Lemma existsb_eqb_In (k : string) (seen : list string) :
  existsb (String.eqb k) seen = true <-> In k seen.
Proof.
  rewrite existsb_exists. split.
  - intros [x [Hin Heq]]. apply String.eqb_eq in Heq. now subst.
  - intros Hin. exists k. split; [exact Hin | apply String.eqb_refl].
Qed.

Lemma in_add_names (k : string) (ks seen : list string) :
  In k (fold_left Frame.add_name ks seen) <-> In k seen \/ In k ks.
Proof.
  revert seen. induction ks as [|k' ks IH]; intros seen; simpl.
  - tauto.
  - rewrite IH. unfold Frame.add_name.
    destruct (existsb (String.eqb k') seen) eqn:E.
    + apply existsb_eqb_In in E. split; [tauto|].
      intros [H|[<-|H]]; auto.
    + rewrite in_app_iff. simpl. tauto.
Qed.

Lemma in_first_seen_from (k : string) (results : list Dict.t)
      (seen : list string) :
  In k (fold_left (fun seen d => fold_left Frame.add_name (Dict.keys d) seen)
                  results seen)
  <-> In k seen \/ exists d, In d results /\ In k (Dict.keys d).
Proof.
  revert seen. induction results as [|d results IH]; intros seen; simpl.
  - split; [tauto|]. intros [H|[d [[] _]]]. exact H.
  - rewrite IH, in_add_names. split.
    + intros [[H|H]|[d' [H1 H2]]]; eauto.
    + intros [H|[d' [[<-|H1] H2]]]; eauto.
Qed.

(** A name is a column of the frame exactly when some record has it. *)
Lemma in_first_seen (k : string) (results : list Dict.t) :
  In k (Frame.first_seen results)
  <-> exists d, In d results /\ In k (Dict.keys d).
Proof.
  unfold Frame.first_seen. rewrite in_first_seen_from. simpl. tauto.
Qed.

Lemma nodup_add_names (ks seen : list string) :
  NoDup seen -> NoDup (fold_left Frame.add_name ks seen).
Proof.
  revert seen. induction ks as [|k ks IH]; intros seen Hnd; simpl; trivial.
  apply IH. unfold Frame.add_name.
  destruct (existsb (String.eqb k) seen) eqn:E; trivial.
  apply NoDup_app; trivial.
  - repeat constructor. intros [].
  - intros x Hx [<-|[]]. apply existsb_eqb_In in Hx. congruence.
Qed.

Lemma nodup_first_seen (results : list Dict.t) :
  NoDup (Frame.first_seen results).
Proof.
  unfold Frame.first_seen. generalize (NoDup_nil string).
  generalize (@nil string) as seen.
  induction results as [|d results IH]; intros seen Hnd; simpl; trivial.
  apply IH. now apply nodup_add_names.
Qed.

Lemma dict_mem_keys (k : string) (d : Dict.t) :
  Dict.mem k d = true <-> In k (Dict.keys d).
Proof.
  unfold Dict.mem, Dict.keys. induction d as [|[k' v] d IH]; simpl.
  - split; [discriminate | contradiction].
  - destruct (String.eqb k' k) eqn:E.
    + apply String.eqb_eq in E. split; auto.
    + apply String.eqb_neq in E. rewrite IH. split; [auto|].
      intros [H|H]; [congruence | exact H].
Qed.

Lemma lookup_none (name : string) (cols : list (string * list value)) :
  Frame.lookup name cols = None <-> ~ In name (map fst cols).
Proof.
  induction cols as [|[n vs] cols IH]; simpl.
  - tauto.
  - destruct (String.eqb n name) eqn:E.
    + apply String.eqb_eq in E. split; [discriminate | tauto].
    + apply String.eqb_neq in E. rewrite IH. tauto.
Qed.

Lemma names_of_records (results : list Dict.t) :
  Frame.names (Frame.of_records results) = Frame.first_seen results.
Proof.
  unfold Frame.names, Frame.of_records. simpl.
  rewrite map_map. simpl. apply map_id.
Qed.

(** C10. When no accumulated record has a "Sale of" field, in particular
    when there are no records at all, [main] ends in [KeyError] for
    "Sale of" and returns no table. *)
Theorem missing_sale_of_column (data : directory) (results : list Dict.t) :
  collect data = Ok results ->
  (forall d, In d results -> Dict.mem "Sale of" d = false) ->
  main data = Raise (KeyError "Sale of").
Proof.
  intros Hcollect Hnone. unfold main. rewrite Hcollect. simpl.
  unfold emit, Frame.getitem.
  replace (Frame.lookup "Sale of" (Frame.columns (Frame.of_records results)))
    with (@None (list value)); [reflexivity|].
  symmetry. apply lookup_none.
  change (~ In "Sale of" (Frame.names (Frame.of_records results))).
  rewrite names_of_records, in_first_seen. intros [d [Hin Hkey]].
  apply dict_mem_keys in Hkey. rewrite (Hnone d Hin) in Hkey. discriminate.
Qed.

Lemma missing_sale_of_column_witness :
  main [("catalog.pdf", Sample.no_sale)] = Raise (KeyError "Sale of")
  /\ main [] = Raise (KeyError "Sale of").
Proof.
  split.
  - apply (missing_sale_of_column [("catalog.pdf", Sample.no_sale)]
                                  [[("Title", "Untitled")]]).
    + vm_compute. reflexivity.
    + intros d [<-|[]]. reflexivity.
  - apply (missing_sale_of_column [] []).
    + reflexivity.
    + intros d [].
Defined.

(** ** Record keys *)

Lemma keys_set (k v k' : string) (d : Dict.t) :
  In k' (Dict.keys (Dict.set k v d)) -> k' = k \/ In k' (Dict.keys d).
Proof.
  unfold Dict.keys. induction d as [|[k0 v0] d IH]; simpl.
  - intros [<-|[]]. now left.
  - destruct (String.eqb k0 k) eqn:E; simpl.
    + intros [<-|H]; auto.
    + intros [<-|H]; auto. apply IH in H. tauto.
Qed.

Lemma known_keys_set (k v : string) (d : Dict.t) :
  In k ("Artist" :: ARTNET_CATEGORIES) -> known_keys d ->
  known_keys (Dict.set k v d).
Proof.
  intros Hk Hd k' Hin. apply keys_set in Hin. destruct Hin as [->|Hin]; auto.
Qed.

Lemma first_label_in (labels : list string) (line field : string) :
  first_label labels line = Some field -> In field labels.
Proof.
  intros H. apply first_label_spec in H.
  destruct H as (before & after & -> & _). apply in_elt.
Qed.

Lemma parse_line_known_keys (lines : list string) (st : parser_state)
      (entry : nat * string) :
  known_keys (artwork st) -> known_keys (artwork (parse_line lines st entry)).
Proof.
  intros Hst. unfold parse_line.
  set (line := Str.strip (snd entry)).
  assert (Hart : known_keys (infer_artist lines (fst entry) line (artwork st))).
  { unfold infer_artist.
    destruct (Str.startswith line "Title"); trivial.
    destruct (0 <? fst entry); trivial.
    destruct (existsb _ ARTNET_CATEGORIES); trivial.
    apply known_keys_set; trivial. now left. }
  destruct (first_label ARTNET_CATEGORIES line) as [field|] eqn:E; simpl.
  - apply known_keys_set; trivial. right. now apply first_label_in in E.
  - destruct (current_field st) as [cur|]; simpl; trivial.
    destruct (Dict.get cur _) as [old|] eqn:G; simpl; trivial.
    intros k Hin. apply keys_set in Hin. destruct Hin as [->|Hin]; auto.
    apply Hart. apply dict_mem_keys. unfold Dict.mem. now rewrite G.
Qed.

Lemma parse_text_known_keys (text : string) : known_keys (parse_text text).
Proof.
  unfold parse_text. generalize (Str.split_lines text) at 1 as lines.
  intros lines. generalize (enumerate (Str.split_lines text)) as entries.
  assert (H0 : known_keys (artwork (mkState [] None))) by (intros k []).
  revert H0. generalize (mkState [] None) as st.
  intros st H0 entries. revert st H0.
  induction entries as [|e entries IH]; intros st H0; simpl; trivial.
  apply IH. now apply parse_line_known_keys.
Qed.

Lemma for_each_invariant {A S : Type} (P : S -> Prop)
      (body : S -> A -> exc S) (xs : list A) :
  (forall acc x acc', P acc -> body acc x = Ok acc' -> P acc') ->
  forall acc out, P acc -> for_each xs body acc = Ok out -> P out.
Proof.
  intros Hbody. induction xs as [|x xs IH]; intros acc out Hacc H; simpl in H.
  - now injection H as <-.
  - destruct (body acc x) as [acc'|e] eqn:E; simpl in H; [|discriminate].
    apply (IH acc' out); [eapply Hbody; eauto | exact H].
Qed.

Lemma process_document_known_keys (results out : list Dict.t)
      (doc : Document) :
  Forall known_keys results -> process_document results doc = Ok out ->
  Forall known_keys out.
Proof.
  unfold process_document.
  destruct (find_artnet_separators doc) as [separators|]; simpl;
    [|discriminate].
  intros Hres. apply for_each_invariant; trivial.
  intros acc i acc' Hacc. unfold process_pair.
  destruct (index separators i) as [s|]; simpl; [|discriminate].
  destruct (index separators (i + 1)) as [e|]; simpl; [|discriminate].
  unfold get_artwork_info.
  destruct (region_text doc s e) as [text|]; simpl; [|discriminate].
  destruct (Str.truthy text); simpl; [|discriminate].
  intros [= <-]. apply Forall_app. split; trivial.
  constructor; [apply parse_text_known_keys | constructor].
Qed.

(** Every accumulated record has only the nine labels and "Artist" as
    keys. *)
Lemma collect_known_keys (data : directory) (results : list Dict.t) :
  collect data = Ok results -> Forall known_keys results.
Proof.
  unfold collect. apply for_each_invariant; [|constructor].
  intros acc doc acc' Hacc H. eapply process_document_known_keys; eauto.
Qed.

Lemma first_seen_known (results : list Dict.t) (k : string) :
  Forall known_keys results -> In k (Frame.first_seen results) ->
  In k ("Artist" :: ARTNET_CATEGORIES).
Proof.
  intros Hall Hin. apply in_first_seen in Hin. destruct Hin as [d [Hd Hk]].
  rewrite Forall_forall in Hall. exact (Hall d Hd k Hk).
Qed.

(** ** Pipeline Driver: the written table *)

Lemma assign_fresh_column (name : string) (vs : list value)
      (cols : list (string * list value)) :
  ~ In name (map fst cols) -> Frame.assign name vs cols = cols ++ [(name, vs)].
Proof.
  induction cols as [|[n old] cols IH]; simpl; intros Hnot; [reflexivity|].
  destruct (String.eqb n name) eqn:E.
  - apply String.eqb_eq in E. tauto.
  - rewrite IH; tauto.
Qed.

Lemma lookup_of_records (name : string) (names : list string)
      (f : string -> list value) :
  In name names ->
  Frame.lookup name (map (fun n => (n, f n)) names) = Some (f name).
Proof.
  induction names as [|n names IH]; simpl; [contradiction|].
  destruct (String.eqb n name) eqn:E.
  - apply String.eqb_eq in E. now subst.
  - apply String.eqb_neq in E. intros [H|H]; [congruence | auto].
Qed.

Lemma map_seq_nth_error {A B : Type} (f : nat -> B) (g : A -> B)
      (xs : list A) (start : nat) :
  (forall i x, nth_error xs i = Some x -> f (start + i) = g x) ->
  map f (seq start (length xs)) = map g xs.
Proof.
  revert start. induction xs as [|x xs IH]; intros start H; simpl.
  - reflexivity.
  - f_equal.
    + rewrite <- (H 0 x eq_refl). f_equal. lia.
    + apply IH. intros i y Hy. rewrite <- (H (S i) y Hy). f_equal. lia.
Qed.

Lemma nth_map_nth_error {A B : Type} (f : A -> B) (xs : list A) (i : nat)
      (x : A) (default : B) :
  nth_error xs i = Some x -> nth i (map f xs) default = f x.
Proof.
  revert i. induction xs as [|a xs IH]; intros [|i] H; try discriminate.
  - now injection H as ->.
  - simpl. now apply IH.
Qed.

Lemma derived_not_known (name : string) :
  In name derived_columns -> ~ In name ("Artist" :: ARTNET_CATEGORIES).
Proof.
  intros Hd Hk. simpl in Hd, Hk.
  repeat (destruct Hd as [<-|Hd]; [intuition discriminate|]).
  contradiction.
Qed.

(** The table that [emit] writes when the "Sale of" column exists. *)
Lemma emit_table (results : list Dict.t) :
  Forall known_keys results ->
  In "Sale of" (Frame.first_seen results) ->
  emit results
  = Ok (Frame.mkCsv (Frame.first_seen results ++ derived_columns)
                    (map (expected_row (Frame.first_seen results)) results)).
Proof.
  intros Hknown Hsale. unfold emit, Frame.getitem.
  unfold Frame.of_records at 1. cbn [Frame.columns].
  rewrite lookup_of_records by exact Hsale. cbn [bind].
  set (names := Frame.first_seen results).
  set (sales := map parse_sale_of_column (map (Frame.cell "Sale of") results)).
  assert (Hfresh : forall name, In name derived_columns -> ~ In name names).
  { intros name Hd Hin. apply (derived_not_known name Hd).
    now apply (first_seen_known results). }
  unfold Frame.setitem, Frame.of_records. cbn [Frame.columns Frame.nrows].
  fold names.
  set (base := map (fun name => (name, map (Frame.cell name) results)) names).
  assert (Hbase : map fst base = names).
  { unfold base. rewrite map_map. apply map_id. }
  rewrite (assign_fresh_column "auction_house").
  2:{ rewrite Hbase. apply Hfresh. simpl. tauto. }
  rewrite (assign_fresh_column "sale_date").
  2:{ rewrite map_app, Hbase, in_app_iff. simpl.
      intros [H|[H|[]]]; [|discriminate]. revert H. apply Hfresh. simpl. tauto. }
  rewrite (assign_fresh_column "lot_number").
  2:{ rewrite !map_app, Hbase, !in_app_iff. simpl.
      intros [[H|[H|[]]]|[H|[]]]; try discriminate.
      revert H. apply Hfresh. simpl. tauto. }
  rewrite (assign_fresh_column "is_online").
  2:{ rewrite !map_app, Hbase, !in_app_iff. simpl.
      intros [[[H|[H|[]]]|[H|[]]]|[H|[]]]; try discriminate.
      revert H. apply Hfresh. simpl. tauto. }
  unfold Frame.to_csv, Frame.names. cbn [Frame.columns Frame.nrows].
  f_equal. f_equal.
  - rewrite !map_app, Hbase, <- !app_assoc. reflexivity.
  - apply map_seq_nth_error. intros i d Hd. simpl.
    unfold Frame.row, expected_row. cbn [Frame.columns].
    rewrite !map_app, <- !app_assoc. f_equal.
    + unfold base. rewrite map_map. apply map_ext. intros name. simpl.
      now apply nth_map_nth_error.
    + unfold sales. simpl. rewrite !map_map.
      now rewrite !(nth_map_nth_error _ results i d VNaN Hd).
Qed.

(** C8, as the program has it. When some accumulated record has a "Sale
    of" field, [main] writes a table with no index column whose header is
    the record keys in order of their first appearance over the
    accumulated records, without repetition, followed by auction_house,
    sale_date, lot_number, is_online, and with one row per record, in
    order: the record's value (or NaN) under each record column, then the
    four attributes decomposed from its "Sale of" cell. *)
Theorem table_layout (data : directory) (results : list Dict.t) :
  collect data = Ok results ->
  (exists d, In d results /\ Dict.mem "Sale of" d = true) ->
  main data
  = Ok (Frame.mkCsv (Frame.first_seen results ++ derived_columns)
                    (map (expected_row (Frame.first_seen results)) results))
  /\ NoDup (Frame.first_seen results)
  /\ (forall k, In k (Frame.first_seen results) <->
                exists d, In d results /\ Dict.mem k d = true)
  /\ (forall k, In k (Frame.first_seen results) ->
                In k ("Artist" :: ARTNET_CATEGORIES)).
Proof.
  intros Hcollect [d [Hd Hsale]].
  assert (Hknown := collect_known_keys data results Hcollect).
  assert (Hmem : forall k, In k (Frame.first_seen results) <->
                           exists d, In d results /\ Dict.mem k d = true).
  { intros k. rewrite in_first_seen. split; intros [d' [H1 H2]]; exists d';
      (split; [exact H1 | now apply dict_mem_keys]). }
  split; [|split; [apply nodup_first_seen | split; [exact Hmem|]]].
  - unfold main. rewrite Hcollect. cbn [bind]. apply emit_table; trivial.
    apply Hmem. now exists d.
  - intros k. now apply first_seen_known.
Qed.

Lemma table_layout_witness :
  main [("catalog.pdf", Sample.one_entry)]
  = Ok (Frame.mkCsv
          ["Artist"; "Title"; "Sale of";
           "auction_house"; "sale_date"; "lot_number"; "is_online"]
          [[VStr "Jane Doe"; VStr "Untitled";
            VStr "Christie's: Wednesday, May 15, 2024 [Lot 42] (Online)";
            VStr "Christie's"; VDate (mkDate 2024 5 15); VStr "42";
            VBool true]]).
Proof.
  refine (eq_trans
            (proj1 (table_layout [("catalog.pdf", Sample.one_entry)]
                      [parse_text Sample.entry_text] _ _)) _).
  - vm_compute. reflexivity.
  - exists (parse_text Sample.entry_text). split; [now left | reflexivity].
  - vm_compute. reflexivity.
Defined.

(** C8 as stated fails: for a document with one entry made of an artist
    line, a title and a "Sale of" line, the header starts with Artist and
    lacks the labels no record has. *)
Lemma fixed_column_order_fails :
  exists table,
    main [("catalog.pdf", Sample.one_entry)] = Ok table
    /\ Frame.header table <> fixed_columns.
Proof.
  eexists. split; [vm_compute; reflexivity | discriminate].
Qed.

(** * Further properties *)

(** ** Separator Locator: order, bounds and errors *)

Lemma markers_on_page (page_num : nat) (ds : list drawing) (sep : separator) :
  In sep (flat_map (drawing_markers page_num) ds) ->
  page sep = page_num /\ PrimFloat.ltb 50 (y sep) = true.
Proof.
  rewrite in_flat_map. intros [d [_ H]].
  unfold drawing_markers, qualifies in H.
  destruct (items d) as [|[rect| | |] rest]; try contradiction.
  destruct (PrimFloat.ltb _ 1 && PrimFloat.ltb 100 _) eqn:E1; simpl in H;
    [|contradiction].
  destruct (PrimFloat.ltb 50 (y0 rect)) eqn:E2; simpl in H; [|contradiction].
  destruct H as [<-|[]]. simpl. now split.
Qed.

(** The markers of the pages [todo], numbered from [start]. *)
Lemma expected_pages_monotone (todo : list Page) (start : nat) :
  forall i j a b,
    i <= j ->
    let out := flat_map
                 (fun p => flat_map (drawing_markers (fst p))
                                    (get_drawings (snd p)))
                 (combine (seq start (length todo)) todo) in
    nth_error out i = Some a -> nth_error out j = Some b ->
    start <= page a /\ page a <= page b /\ page b < start + length todo.
Proof.
  revert start. induction todo as [|pg todo IH]; intros start i j a b Hij out.
  - subst out. simpl. now destruct i.
  - subst out. simpl.
    set (here := flat_map (drawing_markers start) (get_drawings pg)).
    set (later := flat_map _ (combine (seq (S start) (length todo)) todo)).
    intros Ha Hb.
    assert (Hhere : forall k s, nth_error here k = Some s -> page s = start).
    { intros k s Hk. apply nth_error_In in Hk.
      now apply markers_on_page in Hk. }
    destruct (Nat.lt_ge_cases i (length here)) as [Hi|Hi];
      destruct (Nat.lt_ge_cases j (length here)) as [Hj|Hj].
    + rewrite nth_error_app1 in Ha, Hb by trivial.
      apply Hhere in Ha, Hb. lia.
    + rewrite nth_error_app1 in Ha by trivial.
      rewrite nth_error_app2 in Hb by trivial.
      apply Hhere in Ha.
      destruct (IH (S start) _ _ b b (Nat.le_refl _) Hb Hb) as (H1 & _ & H2).
      lia.
    + lia.
    + rewrite nth_error_app2 in Ha, Hb by trivial.
      destruct (IH (S start) (i - length here) (j - length here) a b) as (H1 & H2 & H3);
        trivial; lia.
Qed.

(** X1. On a document whose drawings all have a first element, the
    separators come out in reading order: page numbers never decrease
    along the list, every page number is a page of the document, every
    [y] is above 50, and so every entry span starts on the page it ends on
    or on an earlier one. *)
Theorem separators_in_reading_order (doc : Document)
        (separators : list separator) :
  well_formed doc ->
  find_artnet_separators doc = Ok separators ->
  in_reading_order separators
  /\ (forall sep, In sep separators ->
                  page sep < length doc /\ PrimFloat.ltb 50 (y sep) = true)
  /\ (forall start_sep end_sep,
        In (start_sep, end_sep) (adjacent separators) ->
        page start_sep <= page end_sep).
Proof.
  intros Hwf Hfind.
  rewrite (find_artnet_separators_expected doc Hwf) in Hfind.
  injection Hfind as <-.
  assert (Horder : in_reading_order (expected_separators doc)).
  { intros i j a b Hij Ha Hb.
    now destruct (expected_pages_monotone doc 0 i j a b Hij Ha Hb) as (_ & H & _). }
  split; [exact Horder|]. split.
  - intros sep Hin. split.
    + apply In_nth_error in Hin. destruct Hin as [i Hi].
      destruct (expected_pages_monotone doc 0 i i sep sep (Nat.le_refl _) Hi Hi)
        as (_ & _ & H). exact H.
    + unfold expected_separators in Hin. apply in_flat_map in Hin.
      destruct Hin as [[n pg] [_ Hin]]. simpl in Hin.
      now apply markers_on_page in Hin.
  - generalize (expected_separators doc) Horder. clear.
    intros seps. induction seps as [|a [|b rest] IH]; intros Horder s e Hin;
      try contradiction.
    destruct Hin as [[= <- <-]|Hin].
    + apply (Horder 0 1 a b); auto.
    + apply IH; trivial. intros i j x z Hij Hx Hz.
      apply (Horder (S i) (S j) x z); trivial. lia.
Qed.

Lemma separators_in_reading_order_witness :
  in_reading_order [mkSep 0 300%float; mkSep 2 100%float].
Proof.
  assert (Hwf : well_formed Sample.three_pages) by solve_well_formed.
  exact (proj1 (separators_in_reading_order Sample.three_pages
                  [mkSep 0 300%float; mkSep 2 100%float] Hwf eq_refl)).
Defined.

Lemma for_each_only_raises {A S : Type} (body : S -> A -> exc S)
      (xs : list A) (only : exn) :
  (forall acc x e, body acc x = Raise e -> e = only) ->
  forall acc e, for_each xs body acc = Raise e -> e = only.
Proof.
  intros Hbody. induction xs as [|x xs IH]; intros acc e H; simpl in H.
  - discriminate.
  - destruct (body acc x) as [acc'|e'] eqn:E; simpl in H.
    + eapply IH; eauto.
    + injection H as <-. eapply Hbody; eauto.
Qed.

Lemma scan_page_only_index_error (doc : Document) (acc : list separator)
      (page_num : nat) (e : exn) :
  scan_page doc acc page_num = Raise e -> e = IndexError.
Proof.
  unfold scan_page, index.
  destruct (nth_error doc page_num) as [pg|]; simpl; [|congruence].
  apply for_each_only_raises. clear. intros acc d e.
  unfold scan_drawing, index.
  destruct (nth_error (items d) 0) as [[rect| | |]|]; simpl; try discriminate.
  - destruct (is_thin_wide rect); discriminate.
  - congruence.
Qed.

Lemma well_formed_dec (doc : Document) :
  well_formed doc \/ has_empty_drawing doc.
Proof.
  induction doc as [|pg doc IH].
  - left. constructor.
  - assert (Hpg : Forall has_first_item (get_drawings pg)
                  \/ exists d, In d (get_drawings pg) /\ items d = []).
    { induction (get_drawings pg) as [|d ds IHd].
      - left. constructor.
      - destruct (items d) as [|it its] eqn:E.
        + right. exists d. split; [now left | exact E].
        + destruct IHd as [H|[d' [H1 H2]]].
          * left. constructor; trivial. unfold has_first_item. congruence.
          * right. exists d'. split; [now right | exact H2]. }
    destruct Hpg as [Hpg|[d [H1 H2]]].
    + destruct IH as [IH|(pg' & d & H1 & H2 & H3)].
      * left. now constructor.
      * right. exists pg', d. repeat split; trivial. now right.
    + right. exists pg, d. repeat split; trivial. now left.
Qed.

Lemma empty_drawing_raises (doc : Document) :
  has_empty_drawing doc -> exists e, find_artnet_separators doc = Raise e.
Proof.
  intros (pg & d & Hpg & Hd & Hitems). unfold find_artnet_separators.
  apply In_nth_error in Hpg. destruct Hpg as [n Hn].
  destruct (for_each_raises (scan_page doc) (seq 0 (length doc)) n)
    with (acc := @nil separator) as [e He].
  - apply in_seq. assert (n < length doc)
      by (apply nth_error_Some; congruence). lia.
  - intros acc. unfold scan_page, index. rewrite Hn. simpl.
    apply for_each_raises with (x := d); trivial.
    intros acc'. exists IndexError. unfold scan_drawing, index.
    now rewrite Hitems.
  - exists e. now rewrite He.
Qed.

(** X2. The Separator Locator raises exactly when some drawing of the
    document has an empty item list, and what it raises is [IndexError]
    (from [drawing['items'][0]]); otherwise it returns a list. *)
Theorem separator_locator_errors (doc : Document) :
  (has_empty_drawing doc <-> find_artnet_separators doc = Raise IndexError)
  /\ (forall e, find_artnet_separators doc = Raise e -> e = IndexError)
  /\ (well_formed doc <-> exists separators,
                            find_artnet_separators doc = Ok separators).
Proof.
  assert (Honly : forall e, find_artnet_separators doc = Raise e -> e = IndexError).
  { intros e. unfold find_artnet_separators.
    destruct (for_each _ _ _) as [seps|e'] eqn:E; simpl; [discriminate|].
    intros [= <-]. revert E. apply for_each_only_raises.
    intros acc x e0. apply scan_page_only_index_error. }
  split; [|split; [exact Honly|]]; split.
  - intros Hempty. destruct (empty_drawing_raises doc Hempty) as [e He].
    now rewrite <- (Honly e He).
  - intros Hraise. destruct (well_formed_dec doc) as [Hwf|Hbad]; trivial.
    rewrite (find_artnet_separators_expected doc Hwf) in Hraise.
    discriminate.
  - intros Hwf. exists (expected_separators doc).
    now apply find_artnet_separators_expected.
  - intros [seps Hseps]. destruct (well_formed_dec doc) as [Hwf|Hbad]; trivial.
    destruct (empty_drawing_raises doc Hbad) as [e He]. congruence.
Qed.

(** ** Trimming *)

Lemma lstrip_empty_iff (s : string) :
  Str.lstrip s = EmptyString <-> all_blank s = true.
Proof.
  induction s as [|c s IH]; simpl; [tauto|].
  destruct (Str.isspace c); simpl; [exact IH|].
  split; discriminate.
Qed.

Lemma rstrip_empty_iff (s : string) :
  Str.rstrip s = EmptyString <-> all_blank s = true.
Proof.
  induction s as [|c s IH]; simpl; [tauto|].
  destruct (Str.rstrip s) as [|c' r].
  - destruct (Str.isspace c); simpl.
    + split; [intros _; now apply IH | reflexivity].
    + split; discriminate.
  - split; [discriminate|]. intros H. apply andb_prop in H.
    destruct H as [_ H]. apply IH in H. discriminate.
Qed.

Lemma lstrip_head (s : string) (c : ascii) (rest : string) :
  Str.lstrip s = String c rest -> Str.isspace c = false.
Proof.
  induction s as [|a s IH]; simpl; [discriminate|].
  destruct (Str.isspace a) eqn:E; [exact IH|].
  now intros [= <- _].
Qed.

(** Trimming leaves nothing exactly for strings of white space. *)
Lemma strip_empty_iff (s : string) :
  Str.strip s = EmptyString <-> all_blank s = true.
Proof.
  unfold Str.strip. rewrite rstrip_empty_iff. split.
  - intros H. apply lstrip_empty_iff.
    destruct (Str.lstrip s) as [|c rest] eqn:E; [reflexivity|].
    apply lstrip_head in E. simpl in H. now rewrite E in H.
  - intros H. apply lstrip_empty_iff in H. now rewrite H.
Qed.

Lemma truthy_strip (s : string) :
  Str.truthy (Str.strip s) = negb (all_blank s).
Proof.
  destruct (all_blank s) eqn:E.
  - apply strip_empty_iff in E. now rewrite E.
  - destruct (Str.strip s) eqn:E'; [|reflexivity].
    apply strip_empty_iff in E'. congruence.
Qed.

Lemma truthy_append_newline (a b : string) :
  Str.truthy (a ++ Str.newline ++ b) = true.
Proof. now destruct a. Qed.

(** ** Region Text Extractor: the remaining cases *)

Lemma add_middle_page_only_index_error (doc : Document) (text : string)
      (page_num : nat) (e : exn) :
  add_middle_page doc text page_num = Raise e -> e = IndexError.
Proof.
  unfold add_middle_page, index.
  destruct (nth_error doc page_num); simpl; congruence.
Qed.

(** The text of a span whose separators lie on two different pages that
    both exist, whichever comes first. *)
Lemma region_text_two_pages (doc : Document) (start_sep end_sep : separator)
      (first_page last_page : Page) :
  page start_sep <> page end_sep ->
  nth_error doc (page start_sep) = Some first_page ->
  nth_error doc (page end_sep) = Some last_page ->
  region_text doc start_sep end_sep
  = Ok (fold_left
          (fun t pg => (t ++ Str.newline ++ Str.strip (get_text pg None))%string)
          (pages_between doc (page start_sep) (page end_sep))
          (clipped_text first_page (y start_sep) (page_height first_page))
        ++ Str.newline ++ clipped_text last_page 0 (y end_sep))%string.
Proof.
  intros Hne Hfirst Hlast. unfold region_text.
  apply Nat.eqb_neq in Hne. rewrite Hne.
  unfold index at 1. rewrite Hfirst. cbn [bind].
  assert (Hs : page start_sep < length doc)
    by (apply nth_error_Some; congruence).
  assert (He : page end_sep < length doc)
    by (apply nth_error_Some; congruence).
  rewrite middle_pages_loop by lia. cbn [bind negb].
  unfold index. now rewrite Hlast.
Qed.

(** X3. The Region Text Extractor returns a text exactly when the pages
    of both separators exist in the document; when one of them does not,
    it raises [IndexError]. *)
Theorem region_text_defined (doc : Document) (start_sep end_sep : separator) :
  (page start_sep < length doc /\ page end_sep < length doc ->
   exists text, region_text doc start_sep end_sep = Ok text)
  /\ (length doc <= page start_sep \/ length doc <= page end_sep ->
      region_text doc start_sep end_sep = Raise IndexError).
Proof.
  split.
  - intros [Hs He].
    destruct (nth_error doc (page start_sep)) as [first_page|] eqn:Hfirst;
      [|apply nth_error_None in Hfirst; lia].
    destruct (nth_error doc (page end_sep)) as [last_page|] eqn:Hlast;
      [|apply nth_error_None in Hlast; lia].
    destruct (Nat.eq_dec (page start_sep) (page end_sep)) as [Heq|Hne].
    + unfold region_text, index. rewrite Heq, Nat.eqb_refl, Hlast. simpl.
      eauto.
    + rewrite (region_text_two_pages doc _ _ _ _ Hne Hfirst Hlast). eauto.
  - intros Hout. unfold region_text.
    destruct (page start_sep =? page end_sep) eqn:Heq.
    + apply Nat.eqb_eq in Heq. unfold index.
      destruct (nth_error doc (page start_sep)) eqn:E; [|reflexivity].
      assert (page start_sep < length doc)
        by (apply nth_error_Some; congruence). lia.
    + unfold index at 1.
      destruct (nth_error doc (page start_sep)) as [first_page|] eqn:Hfirst;
        [|reflexivity].
      assert (Hs : page start_sep < length doc)
        by (apply nth_error_Some; congruence).
      cbn [bind].
      destruct (for_each _ (add_middle_page doc) _) as [text|e] eqn:Hloop;
        cbn [bind negb].
      * unfold index.
        destruct (nth_error doc (page end_sep)) eqn:E; [|reflexivity].
        assert (page end_sep < length doc)
          by (apply nth_error_Some; congruence). lia.
      * f_equal. revert Hloop. apply for_each_only_raises.
        intros acc n e0. apply add_middle_page_only_index_error.
Qed.

Lemma region_text_defined_witness :
  exists text,
    region_text Sample.three_pages (mkSep 2 100%float) (mkSep 0 300%float)
    = Ok text.
Proof.
  apply (proj1 (region_text_defined Sample.three_pages
                  (mkSep 2 100%float) (mkSep 0 300%float))).
  simpl. lia.
Defined.

(** X4. For two separators on one existing page the extracted text is
    the trimmed text of that page clipped from [start.y] to [end.y]; the
    call returns the parsed record when that clipped text has a character
    that is not white space, and raises [UnboundLocalError] when it has
    none. *)
Theorem same_page_span (doc : Document) (start_sep end_sep : separator)
        (pg : Page) :
  page start_sep = page end_sep ->
  nth_error doc (page start_sep) = Some pg ->
  let raw := get_text pg (Some (mkClip 0 (y start_sep) (page_width pg)
                                       (y end_sep))) in
  region_text doc start_sep end_sep = Ok (Str.strip raw)
  /\ (all_blank raw = false ->
      get_artwork_info doc start_sep end_sep = Ok (parse_text (Str.strip raw)))
  /\ (all_blank raw = true ->
      get_artwork_info doc start_sep end_sep = Raise UnboundLocalError).
Proof.
  intros Heq Hpg raw.
  assert (Htext : region_text doc start_sep end_sep = Ok (Str.strip raw)).
  { unfold region_text, index. rewrite <- Heq, Nat.eqb_refl, Hpg. reflexivity. }
  split; [exact Htext|].
  unfold get_artwork_info. rewrite Htext. cbn [bind]. rewrite truthy_strip.
  split; intros ->; reflexivity.
Qed.

Lemma same_page_span_witness :
  get_artwork_info Sample.no_sale (mkSep 0 100%float) (mkSep 0 300%float)
  = Ok [("Title", "Untitled")].
Proof.
  refine (eq_trans
            (proj1 (proj2 (same_page_span Sample.no_sale
                             (mkSep 0 100%float) (mkSep 0 300%float) _
                             eq_refl eq_refl)) _) _);
    reflexivity.
Defined.

(** X5. A span whose separators lie on two different existing pages
    always yields a record: its text holds at least the newline between
    the two clipped parts, so the unbound-variable path is never taken.
    When the start page comes after the end page, no middle page
    contributes and the text is the clipped bottom of the start page, a
    newline, and the clipped top of the end page. *)
Theorem two_page_span_yields_record (doc : Document)
        (start_sep end_sep : separator) (first_page last_page : Page) :
  page start_sep <> page end_sep ->
  nth_error doc (page start_sep) = Some first_page ->
  nth_error doc (page end_sep) = Some last_page ->
  (exists text,
      region_text doc start_sep end_sep = Ok text
      /\ text <> EmptyString
      /\ get_artwork_info doc start_sep end_sep = Ok (parse_text text))
  /\ (page end_sep < page start_sep ->
      region_text doc start_sep end_sep
      = Ok (clipped_text first_page (y start_sep) (page_height first_page)
            ++ Str.newline ++ clipped_text last_page 0 (y end_sep))%string).
Proof.
  intros Hne Hfirst Hlast.
  pose proof (region_text_two_pages doc _ _ _ _ Hne Hfirst Hlast) as Htext.
  split.
  - eexists. split; [exact Htext|]. split.
    + intros H. apply (f_equal Str.truthy) in H.
      rewrite truthy_append_newline in H. discriminate.
    + unfold get_artwork_info. rewrite Htext. cbn [bind].
      now rewrite truthy_append_newline.
  - intros Hrev. rewrite Htext. unfold pages_between.
    replace (page end_sep - (page start_sep + 1)) with 0 by lia. reflexivity.
Qed.

Lemma two_page_span_yields_record_witness :
  region_text Sample.three_pages (mkSep 2 100%float) (mkSep 0 300%float)
  = Ok ("bottom p2" ++ Str.newline ++ "top p0")%string.
Proof.
  refine (eq_trans
            (proj2 (two_page_span_yields_record Sample.three_pages
                      (mkSep 2 100%float) (mkSep 0 300%float) _ _
                      _ eq_refl eq_refl) _) _).
  - simpl. discriminate.
  - simpl. lia.
  - reflexivity.
Defined.

(** ** Pipeline Driver: spans, documents, directories *)

Lemma for_each_append {A S : Type} (body : S -> A -> exc S) (xs ys : list A)
      (acc : S) :
  for_each (xs ++ ys) body acc
  = bind (for_each xs body acc) (for_each ys body).
Proof.
  revert acc; induction xs as [|x xs IH]; intros acc; simpl; [reflexivity|].
  destruct (body acc x); simpl; auto.
Qed.

(** The index loop over [range(len(separators) - 1)] visits the adjacent
    pairs of the list, in order. *)
Lemma pairs_loop_from (doc : Document) (done todo : list separator)
      (results : list Dict.t) :
  for_each (seq (length done) (length todo - 1))
           (process_pair doc (done ++ todo)) results
  = for_each (adjacent todo) (process_span doc) results.
Proof.
  revert done results. induction todo as [|a todo IH]; intros done results.
  - reflexivity.
  - destruct todo as [|b rest]; [reflexivity|].
    replace (length (a :: b :: rest) - 1) with (S (length (b :: rest) - 1))
      by (simpl; lia).
    cbn [seq adjacent for_each].
    unfold process_pair at 1, process_span at 1, index.
    rewrite nth_error_app2 by lia. rewrite Nat.sub_diag. cbn [nth_error bind].
    rewrite nth_error_app2 by lia.
    replace (length done + 1 - length done) with 1 by lia.
    cbn [nth_error bind fst snd].
    destruct (get_artwork_info doc a b) as [art|e]; cbn [bind]; [|reflexivity].
    specialize (IH (done ++ [a]) (results ++ [art])).
    rewrite <- app_assoc, length_app in IH. simpl in IH.
    rewrite Nat.add_1_r in IH. exact IH.
Qed.

Lemma process_document_spans (doc : Document) (results : list Dict.t) :
  process_document results doc
  = separators <- find_artnet_separators doc ;;
    for_each (adjacent separators) (process_span doc) results.
Proof.
  unfold process_document.
  destruct (find_artnet_separators doc) as [separators|e]; simpl;
    [|reflexivity].
  exact (pairs_loop_from doc [] separators results).
Qed.

Lemma length_adjacent {A : Type} (xs : list A) :
  length (adjacent xs) = length xs - 1.
Proof.
  induction xs as [|a [|b rest] IH]; try reflexivity.
  change (length (adjacent (a :: b :: rest)))
    with (S (length (adjacent (b :: rest)))).
  rewrite IH. simpl. lia.
Qed.

(** A loop that appends one produced element per iteration does not look
    at what it was started with. *)
Lemma for_each_emit_shift {A B : Type} (g : A -> exc B) (xs : list A)
      (acc : list B) :
  for_each xs (fun acc x => b <- g x ;; Ok (acc ++ [b])) acc
  = bind (for_each xs (fun acc x => b <- g x ;; Ok (acc ++ [b])) [])
         (fun new => Ok (acc ++ new)).
Proof.
  revert acc. induction xs as [|x xs IH]; intros acc; simpl.
  - now rewrite app_nil_r.
  - destruct (g x) as [b|e]; simpl; [|reflexivity].
    rewrite (IH (acc ++ [b])), (IH [b]).
    destruct (for_each xs _ []) as [new|e]; simpl; [|reflexivity].
    now rewrite <- app_assoc.
Qed.

Lemma process_document_shift (doc : Document) (results : list Dict.t) :
  process_document results doc
  = bind (process_document [] doc) (fun new => Ok (results ++ new)).
Proof.
  rewrite !process_document_spans.
  destruct (find_artnet_separators doc) as [separators|e]; simpl;
    [|reflexivity].
  exact (for_each_emit_shift
           (fun span => get_artwork_info doc (fst span) (snd span))
           (adjacent separators) results).
Qed.

Lemma documents_shift (docs : list Document) (results : list Dict.t) :
  for_each docs process_document results
  = bind (for_each docs process_document [])
         (fun new => Ok (results ++ new)).
Proof.
  revert results. induction docs as [|doc docs IH]; intros results; simpl.
  - now rewrite app_nil_r.
  - rewrite (process_document_shift doc results).
    destruct (process_document [] doc) as [new|e]; simpl; [|reflexivity].
    rewrite (IH (results ++ new)), (IH new).
    destruct (for_each docs process_document []) as [more|e]; simpl;
      [|reflexivity].
    now rewrite <- app_assoc.
Qed.

(** X6. A document whose entry spans all have a non-empty text is
    processed to the end and appends, to whatever was accumulated, exactly
    one record per adjacent pair of separators, in order, each the parse
    of that span's text: N separators give N-1 records.  Conversely, a
    document that is processed to the end has a non-empty text in every
    span. *)
Theorem document_records (doc : Document) (separators : list separator)
        (results : list Dict.t) :
  find_artnet_separators doc = Ok separators ->
  ((forall span, In span (adjacent separators) ->
      exists text, region_text doc (fst span) (snd span) = Ok text
                   /\ text <> EmptyString) ->
   exists records,
     process_document results doc = Ok (results ++ records)
     /\ length records = length separators - 1
     /\ Forall2 (fun span art =>
                   exists text,
                     region_text doc (fst span) (snd span) = Ok text
                     /\ art = parse_text text)
                (adjacent separators) records)
  /\ (forall out,
        process_document results doc = Ok out ->
        forall span, In span (adjacent separators) ->
          exists text, region_text doc (fst span) (snd span) = Ok text
                       /\ text <> EmptyString).
Proof.
  intros Hfind. rewrite process_document_spans, Hfind. cbn [bind].
  rewrite <- (length_adjacent separators).
  generalize (adjacent separators) as spans. intros spans. split.
  - revert results. induction spans as [|span spans IH]; intros results Hall.
    + exists []. rewrite app_nil_r. repeat split; constructor.
    + destruct (Hall span (or_introl eq_refl)) as (text & Htext & Hne).
      destruct (IH (results ++ [parse_text text])) as (records & Hrun & Hlen & Hrel).
      { intros s Hs. apply Hall. now right. }
      exists (parse_text text :: records).
      cbn [for_each]. unfold process_span at 1, get_artwork_info.
      rewrite Htext. cbn [bind].
      destruct text as [|c text]; [congruence|]. cbn [Str.truthy bind].
      rewrite Hrun, <- app_assoc. repeat split; simpl; try congruence.
      constructor; eauto.
  - revert results. induction spans as [|span spans IH];
      intros results out Hrun s Hin; [contradiction|].
    cbn [for_each] in Hrun. unfold process_span at 1, get_artwork_info in Hrun.
    destruct (region_text doc (fst span) (snd span)) as [text|e] eqn:Htext;
      cbn [bind] in Hrun; [|discriminate].
    destruct text as [|c text]; cbn [Str.truthy bind] in Hrun; [discriminate|].
    destruct Hin as [<-|Hin].
    + exists (String c text). split; [exact Htext | discriminate].
    + eapply IH; eauto.
Qed.

Lemma document_records_witness :
  exists records,
    process_document [] Sample.one_entry = Ok ([] ++ records)
    /\ length records = 1.
Proof.
  destruct (proj1 (document_records Sample.one_entry
                     [mkSep 0 100%float; mkSep 0 300%float] [] eq_refl))
    as (records & Hrun & Hlen & _).
  - intros span [<-|[]]. exists Sample.entry_text.
    split; [reflexivity | discriminate].
  - exists records. split; [exact Hrun | exact Hlen].
Defined.

(** X7. Documents do not influence each other's records: the records
    collected from two directories listed one after the other are the
    records of the first followed by the records of the second, and the
    run fails when either part fails. *)
Theorem collect_concatenates (first second : directory) :
  collect (first ++ second)
  = r1 <- collect first ;; r2 <- collect second ;; Ok (r1 ++ r2).
Proof.
  unfold collect, pdf_files. rewrite filter_app, map_app, for_each_append.
  destruct (for_each _ process_document []) as [r1|e]; simpl; [|reflexivity].
  apply documents_shift.
Qed.

(** X8. Directory entries whose name does not end in ".pdf" are ignored,
    and the names of the others do not matter: two directories with the
    same PDF documents in the same order give the same run of [main]. *)
Theorem only_pdf_documents_matter (data other : directory) :
  map snd (pdf_files data) = map snd (pdf_files other) ->
  main data = main other
  /\ (forall name doc before after,
        endswith name ".pdf" = false ->
        data = before ++ (name, doc) :: after ->
        main data = main (before ++ after)).
Proof.
  intros Hsame. split.
  - unfold main, collect. now rewrite Hsame.
  - intros name doc before after Hname ->.
    unfold main, collect, pdf_files. rewrite !filter_app. simpl.
    now rewrite Hname.
Qed.

Lemma only_pdf_documents_matter_witness :
  main [("notes.txt", Sample.empty_span); ("a.pdf", Sample.one_entry)]
  = main [("catalog.pdf", Sample.one_entry)].
Proof.
  exact (proj1 (only_pdf_documents_matter
                  [("notes.txt", Sample.empty_span); ("a.pdf", Sample.one_entry)]
                  [("catalog.pdf", Sample.one_entry)] eq_refl)).
Defined.

(** ** Pipeline Driver: when a table is written *)

Lemma has_sale_of_dec (results : list Dict.t) :
  (exists d, In d results /\ Dict.mem "Sale of" d = true)
  \/ (forall d, In d results -> Dict.mem "Sale of" d = false).
Proof.
  induction results as [|d results [(d' & Hin & Hmem)|Hnone]].
  - right. intros d [].
  - left. exists d'. split; [now right | exact Hmem].
  - destruct (Dict.mem "Sale of" d) eqn:E.
    + left. exists d. split; [now left | exact E].
    + right. intros d' [<-|Hin]; auto.
Qed.

Lemma emit_key_error (results : list Dict.t) :
  (forall d, In d results -> Dict.mem "Sale of" d = false) ->
  emit results = Raise (KeyError "Sale of").
Proof.
  intros Hnone. unfold emit, Frame.getitem.
  replace (Frame.lookup "Sale of" (Frame.columns (Frame.of_records results)))
    with (@None (list value)); [reflexivity|].
  symmetry. apply lookup_none.
  change (~ In "Sale of" (Frame.names (Frame.of_records results))).
  rewrite names_of_records, in_first_seen. intros [d [Hin Hkey]].
  apply dict_mem_keys in Hkey. rewrite (Hnone d Hin) in Hkey. discriminate.
Qed.

Lemma emit_with_sale_of (results : list Dict.t) :
  Forall known_keys results ->
  (exists d, In d results /\ Dict.mem "Sale of" d = true) ->
  emit results
  = Ok (Frame.mkCsv (Frame.first_seen results ++ derived_columns)
                    (map (expected_row (Frame.first_seen results)) results)).
Proof.
  intros Hknown (d & Hin & Hmem). apply emit_table; trivial.
  apply in_first_seen. exists d. split; trivial. now apply dict_mem_keys.
Qed.

(** What a successful run has written. *)
Lemma main_ok_inv (data : directory) (table : Frame.csv) :
  main data = Ok table ->
  exists results,
    collect data = Ok results
    /\ (exists d, In d results /\ Dict.mem "Sale of" d = true)
    /\ Forall known_keys results
    /\ table = Frame.mkCsv (Frame.first_seen results ++ derived_columns)
                           (map (expected_row (Frame.first_seen results))
                                results).
Proof.
  unfold main. destruct (collect data) as [results|e] eqn:Hcollect;
    cbn [bind]; [|discriminate].
  intros Hemit. exists results.
  pose proof (collect_known_keys data results Hcollect) as Hknown.
  destruct (has_sale_of_dec results) as [Hsale|Hnone].
  - rewrite (emit_with_sale_of results Hknown Hsale) in Hemit.
    injection Hemit as <-. repeat split; trivial.
  - rewrite (emit_key_error results Hnone) in Hemit. discriminate.
Qed.

(** X9. [main] writes a table exactly when every PDF document is
    processed to the end and at least one of the accumulated records has a
    "Sale of" field; in every other case it ends in an exception and
    nothing is written. *)
Theorem main_writes_iff (data : directory) :
  (exists table, main data = Ok table)
  <-> (exists results,
         collect data = Ok results
         /\ exists d, In d results /\ Dict.mem "Sale of" d = true).
Proof.
  split.
  - intros [table Hmain]. apply main_ok_inv in Hmain.
    destruct Hmain as (results & Hcollect & Hsale & _). eauto.
  - intros (results & Hcollect & Hsale). unfold main. rewrite Hcollect.
    cbn [bind]. rewrite emit_with_sale_of; eauto.
    now apply (collect_known_keys data).
Qed.

(** X10. Every written table is rectangular and well named: no column
    name occurs twice, "Sale of" is a column, the last four columns are
    auction_house, sale_date, lot_number and is_online, every other column
    is one of the nine labels or Artist, and each row has one cell per
    column. *)
Theorem written_table_shape (data : directory) (table : Frame.csv) :
  main data = Ok table ->
  NoDup (Frame.header table)
  /\ In "Sale of" (Frame.header table)
  /\ (exists record_columns,
        Frame.header table = record_columns ++ derived_columns
        /\ forall name, In name record_columns ->
                        In name ("Artist" :: ARTNET_CATEGORIES))
  /\ (forall row, In row (Frame.lines table) ->
                  length row = length (Frame.header table)).
Proof.
  intros Hmain. apply main_ok_inv in Hmain.
  destruct Hmain as (results & _ & (d & Hd & Hmem) & Hknown & ->).
  cbn [Frame.header Frame.lines].
  assert (Hnames : forall name, In name (Frame.first_seen results) ->
                                In name ("Artist" :: ARTNET_CATEGORIES)).
  { intros name. now apply first_seen_known. }
  split; [|split; [|split]].
  - apply NoDup_app.
    + apply nodup_first_seen.
    + unfold derived_columns.
      repeat (constructor; [simpl; intuition discriminate|]). constructor.
    + intros name Hin Hder. exact (derived_not_known name Hder (Hnames name Hin)).
  - apply in_or_app. left. apply in_first_seen. exists d.
    split; [exact Hd | now apply dict_mem_keys].
  - exists (Frame.first_seen results). split; [reflexivity | exact Hnames].
  - intros row Hrow. apply in_map_iff in Hrow. destruct Hrow as [r [<- _]].
    unfold expected_row. rewrite !length_app, length_map. reflexivity.
Qed.

Lemma written_table_shape_witness :
  NoDup ["Artist"; "Title"; "Sale of";
         "auction_house"; "sale_date"; "lot_number"; "is_online"].
Proof.
  exact (proj1
           (written_table_shape [("catalog.pdf", Sample.one_entry)]
              (Frame.mkCsv
                 ["Artist"; "Title"; "Sale of";
                  "auction_house"; "sale_date"; "lot_number"; "is_online"]
                 [[VStr "Jane Doe"; VStr "Untitled";
                   VStr "Christie's: Wednesday, May 15, 2024 [Lot 42] (Online)";
                   VStr "Christie's"; VDate (mkDate 2024 5 15); VStr "42";
                   VBool true]])
              eq_refl)).
Defined.

Lemma parse_sale_of_cases (entry : value) :
  parse_sale_of_column entry = mkSeries None None None false
  \/ exists house when lot flag,
       parse_sale_of_column entry
       = mkSeries (Some house) (Some when) (Some lot) flag.
Proof.
  unfold parse_sale_of_column, parse_sale_of_body.
  destruct (Re.re_match pattern (Show.str entry)) as [[stop groups]|];
    [|now left].
  destruct (Strptime.strptime _) as [d|e]; simpl; [|now left].
  right. eauto.
Qed.

(** X11. In every row of a written table the four derived cells stand
    or fall together: either auction house, sale date and lot number are
    all null and the online flag is false, or all three are present. *)
Theorem derived_cells_atomic (data : directory) (table : Frame.csv) :
  main data = Ok table ->
  forall row, In row (Frame.lines table) ->
    exists cells,
      length cells + 4 = length (Frame.header table)
      /\ (row = cells ++ [VNone; VNone; VNone; VBool false]
          \/ exists house when lot flag,
               row = cells ++ [VStr house; VDate when; VStr lot; VBool flag]).
Proof.
  intros Hmain row Hrow. apply main_ok_inv in Hmain.
  destruct Hmain as (results & _ & _ & _ & ->).
  cbn [Frame.header Frame.lines] in *.
  apply in_map_iff in Hrow. destruct Hrow as [d [<- _]].
  exists (map (fun name => Frame.cell name d) (Frame.first_seen results)).
  split; [now rewrite length_app, length_map|].
  unfold expected_row.
  destruct (parse_sale_of_cases (Frame.cell "Sale of" d))
    as [Hnull|(house & when & lot & flag & Hfull)].
  - left. now rewrite Hnull.
  - right. exists house, when, lot, flag. now rewrite Hfull.
Qed.

Lemma derived_cells_atomic_witness :
  exists cells,
    length cells + 4 = 5
    /\ ([VStr "n/a"; VNone; VNone; VNone; VBool false]
        = cells ++ [VNone; VNone; VNone; VBool false]
        \/ exists house when lot flag,
             [VStr "n/a"; VNone; VNone; VNone; VBool false]
             = cells ++ [VStr house; VDate when; VStr lot; VBool flag]).
Proof.
  apply (derived_cells_atomic
           [("x.pdf", [Sample.page_of [Sample.rule 100%float; Sample.rule 300%float]
                                      (fun _ => "Sale of: n/a")])]
           (Frame.mkCsv ["Sale of"; "auction_house"; "sale_date";
                         "lot_number"; "is_online"]
                        [[VStr "n/a"; VNone; VNone; VNone; VBool false]])).
  - vm_compute. reflexivity.
  - now left.
Defined.

(** ** Field Parser: invariants of the record *)

Lemma dict_mem_set (k k' v : string) (d : Dict.t) :
  Dict.mem k (Dict.set k' v d) = (String.eqb k' k || Dict.mem k d)%bool.
Proof.
  unfold Dict.mem. destruct (String.eqb k' k) eqn:E.
  - apply String.eqb_eq in E. subst. now rewrite dict_get_set_same.
  - apply String.eqb_neq in E. rewrite dict_get_set_other by congruence.
    reflexivity.
Qed.

Lemma keys_set_present (k v old : string) (d : Dict.t) :
  Dict.get k d = Some old -> Dict.keys (Dict.set k v d) = Dict.keys d.
Proof.
  unfold Dict.keys. induction d as [|[k0 v0] d IH]; simpl; [discriminate|].
  destruct (String.eqb k0 k) eqn:E; simpl.
  - apply String.eqb_eq in E. now subst.
  - intros H. now rewrite IH.
Qed.

Lemma keys_set_absent (k v : string) (d : Dict.t) :
  Dict.get k d = None -> Dict.keys (Dict.set k v d) = Dict.keys d ++ [k].
Proof.
  unfold Dict.keys. induction d as [|[k0 v0] d IH]; simpl; [reflexivity|].
  destruct (String.eqb k0 k) eqn:E; simpl; [discriminate|].
  intros H. now rewrite IH.
Qed.

Lemma nodup_keys_set (k v : string) (d : Dict.t) :
  NoDup (Dict.keys d) -> NoDup (Dict.keys (Dict.set k v d)).
Proof.
  intros Hnd. destruct (Dict.get k d) as [old|] eqn:E.
  - now rewrite (keys_set_present k v old d E).
  - rewrite (keys_set_absent k v d E). apply NoDup_app; trivial.
    + repeat constructor. intros [].
    + intros x Hx [<-|[]]. apply dict_mem_keys in Hx.
      unfold Dict.mem in Hx. now rewrite E in Hx.
Qed.

Lemma title_line_label (line : string) :
  Str.startswith line "Title" = true ->
  first_label ARTNET_CATEGORIES line = Some "Title".
Proof.
  intros H. unfold ARTNET_CATEGORIES. cbn [first_label]. now rewrite H.
Qed.

Lemma label_not_artist (line field : string) :
  first_label ARTNET_CATEGORIES line = Some field -> field <> "Artist".
Proof.
  intros H ->. apply first_label_in in H. simpl in H.
  intuition discriminate.
Qed.

(** The invariants one loop iteration keeps. *)
Lemma parse_line_invariants (lines : list string) (st : parser_state)
      (entry : nat * string) :
  let st' := parse_line lines st entry in
  (NoDup (Dict.keys (artwork st)) -> NoDup (Dict.keys (artwork st')))
  /\ ((Dict.mem "Artist" (artwork st) = true ->
       Dict.mem "Title" (artwork st) = true) ->
      Dict.mem "Artist" (artwork st') = true ->
      Dict.mem "Title" (artwork st') = true).
Proof.
  unfold parse_line. set (line := Str.strip (snd entry)).
  unfold infer_artist.
  destruct (Str.startswith line "Title") eqn:Htitle.
  - rewrite (title_line_label line Htitle). cbn [artwork]. split.
    + intros Hnd. apply nodup_keys_set.
      destruct (0 <? fst entry); trivial.
      destruct (existsb _ ARTNET_CATEGORIES); trivial.
      now apply nodup_keys_set.
    + intros _ _. rewrite dict_mem_set. reflexivity.
  - destruct (first_label ARTNET_CATEGORIES line) as [field|] eqn:Hlabel.
    + cbn [artwork]. split.
      * apply nodup_keys_set.
      * intros Hinv. rewrite !dict_mem_set.
        pose proof (label_not_artist line field Hlabel) as Hne.
        apply String.eqb_neq in Hne. rewrite Hne. simpl.
        intros H. rewrite (Hinv H). apply orb_true_r.
    + destruct (current_field st) as [cur|]; [|cbn [artwork]; tauto].
      destruct (Dict.get cur (artwork st)) as [old|] eqn:Hget;
        cbn [artwork]; [|tauto].
      split.
      * intros Hnd. now rewrite (keys_set_present cur _ old (artwork st) Hget).
      * assert (Hmem : forall k, Dict.mem k (Dict.set cur (old ++ " " ++ line)
                                                     (artwork st))
                                 = Dict.mem k (artwork st)).
        { intros k. rewrite dict_mem_set.
          destruct (String.eqb cur k) eqn:E; [|reflexivity].
          apply String.eqb_eq in E. subst k. unfold Dict.mem.
          now rewrite Hget. }
        now rewrite !Hmem.
Qed.

Lemma parse_loop_invariants (lines : list string)
      (entries : list (nat * string)) (st : parser_state) :
  let st' := fold_left (parse_line lines) entries st in
  (NoDup (Dict.keys (artwork st)) -> NoDup (Dict.keys (artwork st')))
  /\ ((Dict.mem "Artist" (artwork st) = true ->
       Dict.mem "Title" (artwork st) = true) ->
      Dict.mem "Artist" (artwork st') = true ->
      Dict.mem "Title" (artwork st') = true).
Proof.
  revert st. induction entries as [|e entries IH]; intros st; simpl.
  - tauto.
  - destruct (parse_line_invariants lines st e) as [H1 H2].
    destruct (IH (parse_line lines st e)) as [H3 H4]. split; auto.
Qed.

(** X12. Whatever the text, the parsed record has each key once, its
    keys are among the nine labels and "Artist", and it has an "Artist"
    only together with a "Title". *)
Theorem record_invariants (text : string) :
  NoDup (Dict.keys (parse_text text))
  /\ (forall k, In k (Dict.keys (parse_text text)) ->
                In k ("Artist" :: ARTNET_CATEGORIES))
  /\ (Dict.mem "Artist" (parse_text text) = true ->
      Dict.mem "Title" (parse_text text) = true).
Proof.
  destruct (parse_loop_invariants (Str.split_lines text)
              (enumerate (Str.split_lines text)) (mkState [] None))
    as [Hnodup Hartist].
  split; [|split; [apply parse_text_known_keys|]].
  - apply Hnodup. constructor.
  - apply Hartist. discriminate.
Qed.

(** ** Field Parser: lines *)

Lemma split_single_line (l : string) :
  single_line l = true -> Str.split_lines l = [l].
Proof.
  induction l as [|c l IH]; simpl; [reflexivity|].
  intros H. apply andb_prop in H. destruct H as [Hc Hl].
  apply negb_true_iff in Hc. rewrite Hc, IH by trivial. reflexivity.
Qed.

Lemma split_lines_append (l rest : string) :
  single_line l = true ->
  Str.split_lines (l ++ Str.newline ++ rest) = l :: Str.split_lines rest.
Proof.
  induction l as [|c l IH]; simpl; intros H.
  - reflexivity.
  - apply andb_prop in H. destruct H as [Hc Hl].
    apply negb_true_iff in Hc. rewrite Hc. simpl in IH.
    now rewrite IH.
Qed.

(** Joining newline-free lines and splitting again gives the lines. *)
Lemma split_lines_concat (l : string) (ls : list string) :
  Forall (fun x => single_line x = true) (l :: ls) ->
  Str.split_lines (String.concat Str.newline (l :: ls)) = l :: ls.
Proof.
  revert l. induction ls as [|l' ls IH]; intros l Hall.
  - simpl. apply split_single_line. now inversion Hall.
  - change (String.concat Str.newline (l :: l' :: ls))
      with (l ++ Str.newline ++ String.concat Str.newline (l' :: ls))%string.
    inversion Hall as [|? ? Hl Hrest]; subst.
    rewrite split_lines_append by trivial. now rewrite IH.
Qed.

Lemma unlabelled_not_title (line : string) :
  first_label ARTNET_CATEGORIES line = None ->
  Str.startswith line "Title" = false.
Proof.
  unfold ARTNET_CATEGORIES. cbn [first_label].
  destruct (Str.startswith line "Title"); [discriminate | reflexivity].
Qed.

Lemma dict_set_set (k v w : string) (d : Dict.t) :
  Dict.set k w (Dict.set k v d) = Dict.set k w d.
Proof.
  induction d as [|[k0 v0] d IH]; simpl.
  - now rewrite String.eqb_refl.
  - destruct (String.eqb k0 k) eqn:E; simpl.
    + now rewrite String.eqb_refl.
    + now rewrite E, IH.
Qed.

(** Unlabelled lines after a labelled one are folded into its field. *)
Lemma continuation_loop (lines conts : list string) (start : nat)
      (art : Dict.t) (cur old : string) :
  Forall unlabelled conts ->
  Dict.get cur art = Some old ->
  fold_left (parse_line lines) (combine (seq start (length conts)) conts)
            (mkState art (Some cur))
  = mkState (Dict.set cur
               (fold_left (fun v c => (v ++ " " ++ Str.strip c)%string)
                          conts old)
               art)
            (Some cur).
Proof.
  revert start art old. induction conts as [|c conts IH];
    intros start art old Hall Hget.
  - simpl. f_equal. clear Hall. revert Hget.
    induction art as [|[k0 v0] art IHa]; simpl; [discriminate|].
    destruct (String.eqb k0 cur) eqn:E.
    + apply String.eqb_eq in E. intros [= ->]. now subst.
    + intros H. now rewrite <- IHa.
  - inversion Hall as [|? ? Hc Hrest]; subst. cbn [length seq combine fold_left].
    unfold parse_line at 2, infer_artist. cbn [fst snd].
    unfold unlabelled in Hc. rewrite Hc, (unlabelled_not_title _ Hc).
    cbn [artwork current_field]. rewrite Hget.
    rewrite (IH (S start) _ (old ++ " " ++ Str.strip c)%string Hrest)
      by apply dict_get_set_same.
    now rewrite dict_set_set.
Qed.

(** X13. A text made of one labelled line followed by lines that start
    with no label parses to a record with that one field: the remainder
    of the labelled line, followed, for each later line in order, by a
    space and the trimmed line (a blank line adds a bare space). *)
Theorem continuation_folding (head : string) (conts : list string)
        (field : string) :
  Forall (fun x => single_line x = true) (head :: conts) ->
  first_label ARTNET_CATEGORIES (Str.strip head) = Some field ->
  Forall unlabelled conts ->
  parse_text (String.concat Str.newline (head :: conts))
  = [(field,
      fold_left (fun v c => (v ++ " " ++ Str.strip c)%string) conts
                (field_value field (Str.strip head)))].
Proof.
  intros Hlines Hlabel Hconts. unfold parse_text.
  rewrite (split_lines_concat head conts Hlines).
  unfold enumerate. cbn [length seq combine fold_left].
  unfold parse_line at 2, infer_artist. cbn [fst snd].
  rewrite Hlabel. cbn [Nat.ltb Nat.leb artwork].
  destruct (Str.startswith (Str.strip head) "Title");
    (rewrite (continuation_loop _ conts 1 _ field
                (field_value field (Str.strip head)) Hconts)
      by apply dict_get_set_same);
    cbn [artwork]; now rewrite dict_set_set.
Qed.

Lemma continuation_folding_witness :
  parse_text (String.concat Str.newline
                ["Medium: oil"; " on canvas "; ""; "signed"])
  = [("Medium", "oil on canvas  signed")].
Proof.
  refine (eq_trans
            (continuation_folding "Medium: oil" [" on canvas "; ""; "signed"]
                                  "Medium" _ eq_refl _) _).
  - repeat constructor.
  - repeat constructor.
  - reflexivity.
Defined.

Lemma unlabelled_loop (lines todo : list string) (start : nat) :
  Forall unlabelled todo ->
  fold_left (parse_line lines) (combine (seq start (length todo)) todo)
            (mkState [] None)
  = mkState [] None.
Proof.
  revert start. induction todo as [|l todo IH]; intros start Hall;
    [reflexivity|].
  inversion Hall as [|? ? Hl Hrest]; subst.
  cbn [length seq combine fold_left].
  unfold parse_line at 2, infer_artist. cbn [fst snd].
  unfold unlabelled in Hl. rewrite Hl, (unlabelled_not_title _ Hl).
  cbn [artwork current_field]. now apply IH.
Qed.

(** X14. A text in which no line starts, once trimmed, with one of the
    nine labels parses to the empty record: lines before the first label
    are dropped. *)
Theorem unlabelled_text_empty_record (text : string) :
  Forall unlabelled (Str.split_lines text) -> parse_text text = [].
Proof.
  intros Hall. unfold parse_text, enumerate.
  now rewrite (unlabelled_loop _ _ 0 Hall).
Qed.

Lemma unlabelled_text_empty_record_witness :
  parse_text ("Lot 12" ++ Str.newline ++ "Jane Doe") = [].
Proof.
  apply unlabelled_text_empty_record. repeat constructor.
Defined.

(** ** Field Parser: the artist line *)

(** Lines that do not start with "Title" leave the artist as it is. *)
Lemma artist_untouched (lines : list string) (entries : list (nat * string))
      (st : parser_state) :
  (forall e, In e entries -> Str.startswith (Str.strip (snd e)) "Title" = false) ->
  (forall cur, current_field st = Some cur -> cur <> "Artist") ->
  Dict.get "Artist" (artwork (fold_left (parse_line lines) entries st))
  = Dict.get "Artist" (artwork st).
Proof.
  revert st. induction entries as [|e entries IH]; intros st Hno Hcur;
    [reflexivity|].
  cbn [fold_left].
  assert (Hstep : Dict.get "Artist" (artwork (parse_line lines st e))
                  = Dict.get "Artist" (artwork st)
                  /\ forall cur, current_field (parse_line lines st e) = Some cur ->
                                 cur <> "Artist").
  { unfold parse_line, infer_artist. rewrite (Hno e) by now left.
    destruct (first_label ARTNET_CATEGORIES (Str.strip (snd e))) as [field|] eqn:E.
    - pose proof (label_not_artist _ _ E) as Hne. cbn [artwork current_field].
      split; [now apply dict_get_set_other; congruence|].
      now intros cur [= <-].
    - destruct (current_field st) as [cur|] eqn:Ec; [|now split].
      destruct (Dict.get cur (artwork st)) as [old|]; cbn [artwork current_field].
      + split; [|now intros c [= <-]; apply Hcur].
        apply dict_get_set_other. intros H. now apply (Hcur cur).
      + split; [reflexivity|]. now intros c [= <-]; apply Hcur. }
  destruct Hstep as [Hget Hcur'].
  rewrite IH; trivial. intros e' He'. apply Hno. now right.
Qed.

Lemma parse_line_keeps_keys (lines : list string) (st : parser_state)
      (entry : nat * string) (k : string) :
  Dict.mem k (artwork st) = true ->
  Dict.mem k (artwork (parse_line lines st entry)) = true.
Proof.
  intros Hk. unfold parse_line.
  set (line := Str.strip (snd entry)).
  assert (Hart : Dict.mem k (infer_artist lines (fst entry) line (artwork st))
                 = true).
  { unfold infer_artist.
    destruct (Str.startswith line "Title"); trivial.
    destruct (0 <? fst entry); trivial.
    destruct (existsb _ ARTNET_CATEGORIES); trivial.
    rewrite dict_mem_set, Hk. apply orb_true_r. }
  destruct (first_label ARTNET_CATEGORIES line) as [field|]; cbn [artwork].
  - rewrite dict_mem_set, Hart. apply orb_true_r.
  - destruct (current_field st) as [cur|]; cbn [artwork]; trivial.
    destruct (Dict.get cur _); cbn [artwork]; trivial.
    rewrite dict_mem_set, Hart. apply orb_true_r.
Qed.

(** A field, once set, stays in the record. *)
Lemma fold_keeps_keys (lines : list string) (entries : list (nat * string))
      (st : parser_state) (k : string) :
  Dict.mem k (artwork st) = true ->
  Dict.mem k (artwork (fold_left (parse_line lines) entries st)) = true.
Proof.
  revert st. induction entries as [|e entries IH]; intros st Hk; trivial.
  cbn [fold_left]. apply IH. now apply parse_line_keeps_keys.
Qed.

(** X15. In a text whose second line starts with "Title" and which has
    no later line starting with "Title", the artist is the trimmed first
    line when that line starts with none of the nine labels, and there is
    no artist when it starts with one; the title is taken from the second
    line. *)
Theorem artist_inference (first title : string) (rest : list string) :
  Forall (fun x => single_line x = true) (first :: title :: rest) ->
  Str.startswith (Str.strip title) "Title" = true ->
  Forall (fun l => Str.startswith (Str.strip l) "Title" = false) rest ->
  let record := parse_text (String.concat Str.newline (first :: title :: rest)) in
  Dict.get "Artist" record
  = (if existsb (Str.startswith (Str.strip first)) ARTNET_CATEGORIES
     then None else Some (Str.strip first))
  /\ Dict.mem "Title" record = true.
Proof.
  intros Hlines Htitle Hrest record. subst record. unfold parse_text.
  rewrite (split_lines_concat first (title :: rest) Hlines).
  unfold enumerate. cbn [length seq combine fold_left].
  set (lines := first :: title :: rest).
  set (st0 := parse_line lines (mkState [] None) (0, first)).
  set (st1 := parse_line lines st0 (1, title)).
  assert (H0 : Dict.get "Artist" (artwork st0) = None).
  { unfold st0, parse_line, infer_artist. cbn [fst snd Nat.ltb Nat.leb artwork].
    destruct (first_label ARTNET_CATEGORIES (Str.strip first)) as [field|] eqn:E.
    - pose proof (label_not_artist _ _ E) as Hne. cbn [artwork].
      rewrite dict_get_set_other by congruence.
      now destruct (Str.startswith (Str.strip first) "Title").
    - cbn [current_field artwork].
      now destruct (Str.startswith (Str.strip first) "Title"). }
  assert (H1 : Dict.get "Artist" (artwork st1)
               = (if existsb (Str.startswith (Str.strip first)) ARTNET_CATEGORIES
                  then None else Some (Str.strip first))
               /\ Dict.mem "Title" (artwork st1) = true
               /\ current_field st1 = Some "Title").
  { unfold st1, parse_line, infer_artist. cbn [fst snd].
    rewrite Htitle, (title_line_label _ Htitle).
    cbn [Nat.ltb Nat.leb Nat.sub nth lines artwork current_field].
    split; [|split; [|reflexivity]].
    - rewrite dict_get_set_other by discriminate.
      destruct (existsb _ ARTNET_CATEGORIES); [exact H0|].
      apply dict_get_set_same.
    - rewrite dict_mem_set. reflexivity. }
  destruct H1 as (Hartist & Htitled & Hcur).
  assert (Hno : forall e, In e (combine (seq 2 (length rest)) rest) ->
                          Str.startswith (Str.strip (snd e)) "Title" = false).
  { intros [i l] Hin. apply in_combine_r in Hin.
    rewrite Forall_forall in Hrest. now apply Hrest. }
  split.
  - rewrite (artist_untouched lines _ st1 Hno); [exact Hartist|].
    intros cur. rewrite Hcur. now intros [= <-].
  - now apply fold_keeps_keys.
Qed.

Lemma artist_inference_witness :
  Dict.get "Artist"
    (parse_text (String.concat Str.newline
                   ["  Jane Doe "; "Title: Untitled"; "Size: 10 x 12 in."]))
  = Some "Jane Doe".
Proof.
  refine (eq_trans
            (proj1 (artist_inference "  Jane Doe " "Title: Untitled"
                      ["Size: 10 x 12 in."] _ eq_refl _)) _).
  - repeat constructor.
  - repeat constructor.
  - reflexivity.
Defined.

(** ** The matcher is sound *)

Lemma length_append (a b : string) :
  String.length (a ++ b) = String.length a + String.length b.
Proof. induction a as [|x a IH]; simpl; [reflexivity | now rewrite IH]. Qed.

Lemma take_append (w rest : string) :
  Str.take (String.length w) (w ++ rest) = w.
Proof. induction w as [|x w IH]; simpl; [now destruct rest | now rewrite IH]. Qed.

(** Whatever [run] finds, it finds by consuming a word the expression
    matches and handing the rest to its continuation. *)
Lemma run_sound (r : Re.regex) :
  forall k pos s c res,
    Re.run r k pos s c = Some res ->
    exists w rest c',
      s = (w ++ rest)%string
      /\ matches r pos w rest c c'
      /\ k (pos + String.length w) rest c' = Some res.
Proof.
  induction r as [|accepts|r1 IH1 r2 IH2|r1 IH1 r2 IH2|greedy body IH
                  |i body IH| |];
    intros k pos s c res H; cbn [Re.run] in H.
  - exists EmptyString, s, c. rewrite Nat.add_0_r.
    repeat split; [constructor | exact H].
  - destruct s as [|a s]; [discriminate|].
    destruct (accepts a) eqn:E; [|discriminate].
    exists (String a EmptyString), s, c. simpl. rewrite Nat.add_1_r.
    repeat split; [now constructor | exact H].
  - apply IH1 in H. destruct H as (w1 & rest1 & c1 & -> & Hm1 & H).
    apply IH2 in H. destruct H as (w2 & rest & c2 & -> & Hm2 & H).
    exists (w1 ++ w2)%string, rest, c2.
    rewrite append_assoc, length_append, Nat.add_assoc.
    repeat split; [econstructor; eauto | exact H].
  - unfold Re.or_else in H.
    destruct (Re.run r1 k pos s c) as [x|] eqn:E.
    + injection H as <-. apply IH1 in E.
      destruct E as (w & rest & c1 & -> & Hm & Hk).
      exists w, rest, c1. repeat split; [now apply matches_alt_l | exact Hk].
    + apply IH2 in H. destruct H as (w & rest & c1 & -> & Hm & Hk).
      exists w, rest, c1. repeat split; [now apply matches_alt_r | exact Hk].
  - revert H. generalize (String.length s) at 1 as fuel. intros fuel.
    revert pos s c. induction fuel as [|fuel IHf]; intros pos s c H.
    + assert (Hk : k pos s c = Some res).
      { destruct greedy; cbn in H; unfold Re.or_else in H; cbn in H.
        - exact H.
        - destruct (k pos s c); [exact H | discriminate]. }
      exists EmptyString, s, c. rewrite Nat.add_0_r.
      repeat split; [constructor | exact Hk].
    + cbn [Re.or_else] in H.
      assert (Hcases :
                k pos s c = Some res
                \/ Re.run body
                     (fun pos' s' c' =>
                        if String.length s' <? String.length s
                        then (fix loop (fuel : nat) (pos : nat) (s : string)
                                  (c : Re.captures) : Re.result :=
                                let again (_ : unit) : Re.result :=
                                  match fuel with
                                  | 0 => None
                                  | S fuel' =>
                                      Re.run body
                                        (fun pos' s' c' =>
                                           if String.length s' <? String.length s
                                           then loop fuel' pos' s' c' else None)
                                        pos s c
                                  end in
                                if greedy
                                then Re.or_else (again tt) (fun _ => k pos s c)
                                else Re.or_else (k pos s c) again)
                               fuel pos' s' c'
                        else None)
                     pos s c = Some res).
      { destruct greedy; unfold Re.or_else in H.
        - match type of H with
          | match ?x with _ => _ end = _ => destruct x eqn:E
          end.
          + right. now rewrite <- H.
          + now left.
        - destruct (k pos s c) eqn:E; [left; exact H | right; exact H]. }
      clear H. destruct Hcases as [Hk|Hmore].
      * exists EmptyString, s, c. rewrite Nat.add_0_r.
        repeat split; [constructor | exact Hk].
      * apply IH in Hmore. destruct Hmore as (w1 & rest1 & c1 & -> & Hm1 & H).
        destruct (String.length rest1 <? String.length (w1 ++ rest1));
          [|discriminate].
        apply IHf in H. destruct H as (w2 & rest & c2 & -> & Hm2 & H).
        exists (w1 ++ w2)%string, rest, c2.
        rewrite append_assoc, length_append, Nat.add_assoc.
        repeat split; [econstructor; eauto | exact H].
  - apply IH in H. destruct H as (w & rest & c1 & -> & Hm & H).
    replace (pos + String.length w - pos) with (String.length w) in H by lia.
    rewrite take_append in H.
    exists w, rest, ((i, w) :: c1). repeat split; [now constructor | exact H].
  - destruct (pos =? 0) eqn:E; [|discriminate]. apply Nat.eqb_eq in E. subst.
    exists EmptyString, s, c. repeat split; [constructor | exact H].
  - exists EmptyString, s, c. rewrite Nat.add_0_r.
    destruct s as [|a [|b s]]; try discriminate.
    + repeat split; [constructor; now left | exact H].
    + destruct (Ascii.eqb a Str.nl) eqn:E; [|discriminate].
      apply Ascii.eqb_eq in E. subst a.
      repeat split; [constructor; now right | exact H].
Qed.

Lemma matches_group_free (r : Re.regex) (pos : nat) (w rest : string)
      (c c' : Re.captures) :
  matches r pos w rest c c' -> group_free r = true -> c' = c.
Proof.
  induction 1 as [| |r1 r2 pos w1 w2 rest c c1 c2 _ IH1 _ IH2
                  |r1 r2 pos w rest c c1 _ IH|r1 r2 pos w rest c c1 _ IH
                  | |greedy r pos w1 w2 rest c c1 c2 _ IH1 _ IH2
                  |i r pos w rest c c1 _ IH| |];
    cbn [group_free]; intros Hfree; try reflexivity.
  - apply andb_prop in Hfree. destruct Hfree as [H1 H2].
    rewrite (IH2 H2). now apply IH1.
  - apply andb_prop in Hfree. now apply IH.
  - apply andb_prop in Hfree. now apply IH.
  - rewrite (IH2 Hfree). now apply IH1.
  - discriminate.
Qed.

Lemma all_blank_append (a b : string) :
  all_blank (a ++ b) = (all_blank a && all_blank b)%bool.
Proof.
  induction a as [|x a IH]; simpl; [reflexivity|].
  now rewrite IH, andb_assoc.
Qed.

(** A run of [\s*] consumes white space only. *)
Lemma matches_spaces (greedy : bool) (pos : nat) (w rest : string)
      (c c' : Re.captures) :
  matches (Re.Star greedy Re.space) pos w rest c c' -> all_blank w = true.
Proof.
  intros H. remember (Re.Star greedy Re.space) as r eqn:Hr.
  induction H as [| | | | | |g r pos w1 w2 rest c c1 c2 H1 _ H2 IH2| | |];
    try discriminate; [reflexivity|].
  injection Hr as -> ->. rewrite all_blank_append, (IH2 eq_refl), andb_true_r.
  unfold Re.space in H1.
  inversion H1 as [|? a ? ? ? Ha| | | | | | | |]; subst. simpl.
  now rewrite Ha.
Qed.

Lemma matches_char (a : ascii) (pos : nat) (w rest : string)
      (c c' : Re.captures) :
  matches (Re.char a) pos w rest c c' -> w = String a EmptyString /\ c' = c.
Proof.
  unfold Re.char. intros H. inversion H; subst.
  match goal with
  | E : Ascii.eqb _ _ = true |- _ => apply Ascii.eqb_eq in E; subst
  end.
  now split.
Qed.

Ltac split_seq H :=
  let w1 := fresh "w" in
  let w2 := fresh "w" in
  inversion H as [| |? ? ? w1 w2 ? ? ? ? ?H ?H| | | | | | |]; subst; clear H.

(** The bracket contents start with "Lot" and hold no group. *)
Lemma matches_lot (pos : nat) (w rest : string) (c c' : Re.captures) :
  matches (Re.seqs [Re.literal false "Lot"; Re.Star true Re.space;
                    Re.plus (Re.Chr lot_char)]) pos w rest c c' ->
  Str.startswith w "Lot" = true /\ c' = c.
Proof.
  intros H. split; [|now apply (matches_group_free _ _ _ _ _ _ H)].
  cbn [Re.seqs Re.literal] in H. split_seq H.
  match goal with
  | H : matches (Re.Seq (Re.char "L") _) _ _ _ _ _ |- _ => split_seq H
  end.
  match goal with
  | H : matches (Re.Seq (Re.char "o") _) _ _ _ _ _ |- _ => split_seq H
  end.
  match goal with
  | H : matches (Re.Seq (Re.char "t") _) _ _ _ _ _ |- _ => split_seq H
  end.
  repeat match goal with
         | H : matches (Re.char _) _ _ _ _ _ |- _ =>
             apply matches_char in H; destruct H as [-> ->]
         end.
  reflexivity.
Qed.

Ltac next_seq :=
  match goal with H : matches (Re.Seq _ _) _ _ _ _ _ |- _ => split_seq H end.

Ltac take_group i :=
  match goal with
  | H : matches (Re.Group i _) _ _ _ _ _ |- _ => inversion H; subst; clear H
  end.

Ltac take_char a :=
  match goal with
  | H : matches (Re.char a) _ _ _ _ _ |- _ =>
      apply matches_char in H; destruct H as [-> ->]
  end.

Ltac take_dots :=
  match goal with
  | H : matches (Re.Star false Re.dot) _ _ _ _ _ |- _ =>
      apply matches_group_free in H; [subst|reflexivity]
  end.

Ltac take_spaces Hws :=
  match goal with
  | H : matches (Re.Star true Re.space) _ _ _ _ _ |- _ =>
      pose proof (matches_spaces _ _ _ _ _ _ H) as Hws;
      apply matches_group_free in H; [subst|reflexivity]
  end.

(** The shape of every string the sale pattern matches. *)
Lemma pattern_shape (s : string) (stop : nat) (groups : Re.captures) :
  Re.re_match pattern s = Some (stop, groups) ->
  exists g1 ws1 g2 ws2 g3 g4 tail,
    s = (g1 ++ ":" ++ ws1 ++ g2 ++ ws2 ++ "[" ++ g3 ++ "]" ++ g4 ++ tail)%string
    /\ all_blank ws1 = true /\ all_blank ws2 = true
    /\ (tail = EmptyString \/ tail = Str.newline)
    /\ Str.startswith g3 "Lot" = true
    /\ Re.group 1 groups = g1 /\ Re.group 2 groups = g2
    /\ Re.group 3 groups = g3 /\ Re.group 4 groups = g4.
Proof.
  unfold Re.re_match. intros H. apply run_sound in H.
  destruct H as (w & tail & c' & -> & Hm & Hk).
  unfold Re.accept in Hk. injection Hk as _ <-.
  unfold pattern in Hm.
  change (Re.seqs [Re.Bol; ?a; ?b; ?c; ?d; ?e; ?f; ?g; ?h; ?i; ?j])
    with (Re.Seq Re.Bol (Re.Seq a (Re.Seq b (Re.Seq c (Re.Seq d (Re.Seq e
           (Re.Seq f (Re.Seq g (Re.Seq h (Re.Seq i j)))))))))) in Hm.
  next_seq.
  match goal with
  | H : matches Re.Bol _ _ _ _ _ |- _ => inversion H; subst; clear H
  end.
  next_seq. take_group 1. take_dots.
  next_seq. take_char ":"%char.
  next_seq. take_spaces Hws1.
  next_seq. take_group 2. take_dots.
  next_seq. take_spaces Hws2.
  next_seq. take_char "["%char.
  next_seq. take_group 3.
  match goal with
  | H : matches (Re.Seq (Re.Seq _ _) _) _ _ _ _ _ |- _ =>
      destruct (matches_lot _ _ _ _ _ H) as [Hlot ->]; clear H
  end.
  next_seq. take_char "]"%char.
  next_seq. take_group 4. take_dots.
  match goal with
  | H : matches Re.Eol _ _ _ _ _ |- _ =>
      inversion H as [| | | | | | | | |? ? ? Htail]; subst; clear H
  end.
  exists w, w0, w2, w1, w3, w4, tail.
  rewrite !append_assoc. cbn [String.append Re.group Nat.eqb].
  repeat split; trivial.
Qed.

Lemma strptime_valid (data_string : string) (d : date) :
  Strptime.strptime data_string = Ok d ->
  Strptime.valid_date (year d) (month d) (day d) = true.
Proof.
  unfold Strptime.strptime.
  destruct (Re.re_match Strptime.format_regex data_string) as [[stop found]|];
    [|discriminate].
  destruct (negb _); [discriminate|].
  destruct (Strptime.valid_date _ _ _) eqn:E; [|discriminate].
  now intros [= <-].
Qed.

(** What a populated result tells about the entry. *)
Lemma populated_inv (entry : value) (house lot : string) (when : date)
      (flag : bool) :
  parse_sale_of_column entry
  = mkSeries (Some house) (Some when) (Some lot) flag ->
  exists stop groups,
    Re.re_match pattern (Show.str entry) = Some (stop, groups)
    /\ house = Str.strip (Re.group 1 groups)
    /\ Strptime.strptime (Str.strip (Re.group 2 groups)) = Ok when
    /\ lot = Str.strip (Re.sub lot_prefix "" (Re.group 3 groups))
    /\ flag = match Re.search online (Re.group 4 groups) with
              | Some _ => true
              | None => false
              end.
Proof.
  unfold parse_sale_of_column, parse_sale_of_body.
  destruct (Re.re_match pattern (Show.str entry)) as [[stop groups]|];
    [|discriminate].
  destruct (Strptime.strptime _) as [d|e] eqn:E; cbn [bind]; [|discriminate].
  intros [= <- <- <- <-]. exists stop, groups. repeat split; trivial.
Qed.

(** X16. Every populated decomposition comes from an entry of the form
    house ":" blanks date blanks "[" lot "]" description, optionally ended
    by one newline, where the bracket contents start with "Lot": the
    auction house is the trimmed text before that colon, the sale date is
    the parse of the trimmed date text and is a date of the calendar, the
    lot number is the trimmed bracket contents with every "Lot" prefix and
    the white space after it removed, and the flag tells whether the
    description contains "online" in any letter case. *)
Theorem populated_decomposition (entry : value) (house lot : string)
        (when : date) (flag : bool) :
  parse_sale_of_column entry
  = mkSeries (Some house) (Some when) (Some lot) flag ->
  exists g1 ws1 g2 ws2 g3 g4 tail,
    Show.str entry
    = (g1 ++ ":" ++ ws1 ++ g2 ++ ws2 ++ "[" ++ g3 ++ "]" ++ g4 ++ tail)%string
    /\ all_blank ws1 = true /\ all_blank ws2 = true
    /\ (tail = EmptyString \/ tail = Str.newline)
    /\ Str.startswith g3 "Lot" = true
    /\ house = Str.strip g1
    /\ Strptime.strptime (Str.strip g2) = Ok when
    /\ Strptime.valid_date (year when) (month when) (day when) = true
    /\ lot = Str.strip (Re.sub lot_prefix "" g3)
    /\ flag = match Re.search online g4 with
              | Some _ => true
              | None => false
              end.
Proof.
  intros H. apply populated_inv in H.
  destruct H as (stop & groups & Hmatch & Hhouse & Hdate & Hlot & Hflag).
  apply pattern_shape in Hmatch.
  destruct Hmatch as (g1 & ws1 & g2 & ws2 & g3 & g4 & tail & Hs & H1 & H2
                      & Htail & Hstart & E1 & E2 & E3 & E4).
  rewrite E1 in Hhouse. rewrite E2 in Hdate. rewrite E3 in Hlot.
  rewrite E4 in Hflag.
  exists g1, ws1, g2, ws2, g3, g4, tail.
  repeat split; trivial. now apply (strptime_valid (Str.strip g2)).
Qed.

Lemma populated_decomposition_witness :
  exists g1 ws1 g2 ws2 g3 g4 tail,
    "Christie's: Wednesday, May 15, 2024 [Lot 42] (Online)"
    = (g1 ++ ":" ++ ws1 ++ g2 ++ ws2 ++ "[" ++ g3 ++ "]" ++ g4 ++ tail)%string
    /\ all_blank ws1 = true /\ all_blank ws2 = true
    /\ (tail = EmptyString \/ tail = Str.newline)
    /\ Str.startswith g3 "Lot" = true
    /\ "Christie's" = Str.strip g1
    /\ Strptime.strptime (Str.strip g2) = Ok (mkDate 2024 5 15)
    /\ Strptime.valid_date 2024 5 15 = true
    /\ "42" = Str.strip (Re.sub lot_prefix "" g3)
    /\ true = match Re.search online g4 with
              | Some _ => true
              | None => false
              end.
Proof.
  apply (populated_decomposition
           (VStr "Christie's: Wednesday, May 15, 2024 [Lot 42] (Online)")
           "Christie's" "42" (mkDate 2024 5 15) true).
  vm_compute. reflexivity.
Defined.

Lemma contains_append (a : ascii) (x y : string) :
  contains a (x ++ y) = (contains a x || contains a y)%bool.
Proof.
  induction x as [|b x IH]; simpl; [reflexivity|].
  now rewrite IH, orb_assoc.
Qed.

(** X17. An entry whose text lacks a colon, an opening bracket or a
    closing bracket decomposes to the all-null series. *)
Theorem unbracketed_entry_null (entry : value) :
  contains ":" (Show.str entry) = false
  \/ contains "[" (Show.str entry) = false
  \/ contains "]" (Show.str entry) = false ->
  parse_sale_of_column entry = mkSeries None None None false.
Proof.
  intros Hlack.
  destruct (parse_sale_of_cases entry)
    as [Hnull|(house & when & lot & flag & Hfull)]; [exact Hnull|].
  exfalso. apply populated_inv in Hfull.
  destruct Hfull as (stop & groups & Hmatch & _).
  apply pattern_shape in Hmatch.
  destruct Hmatch as (g1 & ws1 & g2 & ws2 & g3 & g4 & tail & Hs & _).
  rewrite Hs in Hlack. rewrite !contains_append in Hlack.
  cbn [contains Ascii.eqb Bool.eqb] in Hlack.
  rewrite ?orb_true_r, ?orb_true_l in Hlack.
  destruct Hlack as [H|[H|H]]; simpl in H;
    rewrite ?orb_true_r in H; discriminate.
Qed.

Lemma unbracketed_entry_null_witness :
  parse_sale_of_column (VStr "Sotheby's: Friday, May 17, 2024 Lot 9")
  = mkSeries None None None false.
Proof.
  apply unbracketed_entry_null. right. left. reflexivity.
Defined.

(** ** Pipeline Driver: a failing document *)

(** X18. One failing PDF document fails the whole run: when processing
    a document on its own raises, [main] over any directory that lists it
    under a name ending in ".pdf" raises too and writes no table, whatever
    the other documents hold. *)
Theorem failing_document_fails_run (data : directory) (name : string)
        (doc : Document) (e : exn) :
  In (name, doc) data ->
  endswith name ".pdf" = true ->
  process_document [] doc = Raise e ->
  exists e', main data = Raise e'.
Proof.
  intros Hin Hpdf Hdoc. unfold main, collect.
  destruct (for_each_raises process_document (map snd (pdf_files data)) doc)
    with (acc := @nil Dict.t) as [e' He'].
  - apply in_map_iff. exists (name, doc). split; [reflexivity|].
    apply filter_In. now split.
  - intros acc. exists e. now rewrite process_document_shift, Hdoc.
  - exists e'. now rewrite He'.
Qed.

Lemma failing_document_fails_run_witness :
  exists e',
    main [("a.pdf", Sample.one_entry);
          ("b.pdf", [Sample.page_of [mkDrawing []] (fun _ => "")])]
    = Raise e'.
Proof.
  apply (failing_document_fails_run _ "b.pdf"
           [Sample.page_of [mkDrawing []] (fun _ => "")] IndexError).
  - right. now left.
  - reflexivity.
  - reflexivity.
Defined.
